(** * cattbl.yelt: year-event-loss tables

    A shallow embedding of [src/cattbl/yelt.py] and the properties of its
    analytical engine: validation, per-year aggregation, the
    exceedance-frequency curve, return-period interpolation, the layer
    engine, the average annual losses, the severity curve and the
    construction of a table from its columns.

    Conventions of the embedding.
    - A pandas Series with the (Year, EventID, DayOfYear) MultiIndex is the
      list of its rows, in row order, together with its [attrs]; its values
      are the column named 'Loss', as [from_cols] builds it.
    - The methods are reached through the accessor only, so the table they
      work on has passed [_validate].
    - Floating-point numbers are idealised as exact rationals ([Qc]): losses
      and the caller's return periods are finite numbers, and the non-finite
      values that the code itself produces (NaN for an invalid return period,
      an infinite reciprocal) are added by [npfloat].
    - Python exceptions are values of [exn]; a call that may raise returns a
      [result].
    - numpy arrays that are written in place live in a store ([heap]), so
      that aliasing between the caller's array and the callee's is explicit. *)

From Stdlib Require Import ZArith QArith Qcanon Lqa.
From stdpp Require Import base numbers list strings gmap sorting.

(** ** Exceptions and results *)

Inductive exn : Type :=
  | AttributeError (msg : string)
  | TypeError (msg : string)
  | AssertionError (msg : string)
  | IndexError (msg : string)
  | ValueError (msg : string).

Inductive result (A : Type) : Type :=
  | Ok (a : A)
  | Raise (e : exn).
Arguments Ok {A} a.
Arguments Raise {A} e.

#[global] Instance exn_eq_dec : EqDecision exn.
Proof. solve_decision. Defined.

#[global] Instance result_eq_dec {A : Type} `{!EqDecision A} :
  EqDecision (result A).
Proof. solve_decision. Defined.

(** ** Numbers *)

(** A numpy float64: a finite value, NaN, or +inf (the reciprocal of 0.0). *)
Inductive npfloat : Type :=
  | NaN
  | PInf
  | Fin (q : Qc).

#[global] Instance npfloat_eq_dec : EqDecision npfloat.
Proof. solve_decision. Defined.

Definition Qc_of_nat (n : nat) : Qc := Qc_of_Z (Z.of_nat n).

(** [Series.clip(lower=lo)] and [Series.clip(upper=hi)], element-wise;
    [upper=None] leaves the value alone. *)
Definition clip_lower (lo v : Qc) : Qc :=
  if decide (v < lo)%Qc then lo else v.

Definition clip_upper (hi : option Qc) (v : Qc) : Qc :=
  match hi with
  | Some h => if decide (h < v)%Qc then h else v
  | None => v
  end.

Definition Qcmax (a b : Qc) : Qc := if decide (a < b)%Qc then b else a.

(** [Series.sum()] and [Series.max()] of a group.  A group of a groupby is
    never empty, so the value on [[]] (pandas: NaN) is never used. *)
Definition series_sum (l : list Qc) : Qc := foldr Qcplus 0%Qc l.

Definition series_max (l : list Qc) : Qc :=
  match l with
  | [] => 0%Qc
  | x :: l' => foldl Qcmax x l'
  end.

(** ** Stable sorting

    pandas sorts on several keys with a stable lexicographic sort; rows that
    tie on every key keep their relative order.  Insertion from the right is
    such a sort: on a tie the inserted element (which came first) stays in
    front. *)
Section stable_sort.
Context {A : Type} (R : relation A) `{!RelDecision R}.

Fixpoint sort_insert (x : A) (l : list A) : list A :=
  match l with
  | [] => [x]
  | y :: l' => if decide (R x y) then x :: l else y :: sort_insert x l'
  end.

Definition sort_stable (l : list A) : list A := foldr sort_insert [] l.
End stable_sort.

(** ** Data model *)

(** One row of the table: the three index levels and the loss value. *)
Record LossRecord : Type := {
  Year : Z;
  EventID : Z;
  DayOfYear : Z;
  Loss : Qc
}.

#[global] Instance LossRecord_eq_dec : EqDecision LossRecord.
Proof. solve_decision. Defined.

(** The series wrapped by the accessor: its rows and [attrs['n_yrs']]. *)
Record Yelt : Type := {
  n_yrs : Z;
  rows : list LossRecord
}.

Definition key (r : LossRecord) : Z * Z * Z := (Year r, EventID r, DayOfYear r).

Definition with_loss (r : LossRecord) (v : Qc) : LossRecord :=
  {| Year := Year r; EventID := EventID r; DayOfYear := DayOfYear r; Loss := v |}.

(** The invariants that [_validate] establishes for the wrapped series. *)
Definition valid_yelt (t : Yelt) : Prop :=
  NoDup (key <$> rows t) ∧
  ∀ r, r ∈ rows t → (1 ≤ Year r ≤ n_yrs t)%Z.

(** A year loss table: one value per year present, and [n_yrs], which the
    specification has it inherit from the table it is built from. *)
Record Ylt : Type := {
  ylt_n_yrs : Z;
  ylt_rows : list (Z * Qc)
}.

(** ** [to_ylt] *)

(** The group labels of [groupby('Year')]: the distinct years, ascending. *)
Definition group_years (l : list LossRecord) : list Z :=
  sort_stable Z.le (remove_dups (Year <$> l)).

Definition year_group (l : list LossRecord) (y : Z) : list Qc :=
  Loss <$> filter (λ r, Year r = y) l.

Definition to_ylt (t : Yelt) (is_occurrence : bool) : Ylt :=
  {| ylt_n_yrs := n_yrs t;
     ylt_rows :=
       (λ y, (y, if is_occurrence
                 then series_max (year_group (rows t) y)
                 else series_sum (year_group (rows t) y)))
       <$> group_years (rows t) |}.

(** The value of the year loss table at a year ([ylt.loc[y]]). *)
Definition ylt_lookup (s : Ylt) (y : Z) : option Qc :=
  (λ p, p.2.2) <$> list_find (λ p, p.1 = y) (ylt_rows s).

(** ** [exfreq] and [to_ef_curve] *)

(** [Series.rank(ascending=False, method='min')]: the values are ordered
    from the largest down and a value gets the 1-based position of its first
    occurrence, so that ties share the smallest rank of their group. *)
Definition descending (a b : Qc) : Prop := (b ≤ a)%Qc.

#[global] Instance descending_dec : RelDecision descending.
Proof. intros a b. unfold descending. apply _. Defined.

Definition rank_desc_min (vals : list Qc) (x : Qc) : nat :=
  match list_find (λ y, y = x) (sort_stable descending vals) with
  | Some (i, _) => S i
  | None => 0
  end.

(** The rank divided by [n_yrs].  A table with a record has [n_yrs >= 1]
    once validated, so the divisor is not zero. *)
Definition exfreq_of (t : Yelt) (loss : Qc) : Qc :=
  (Qc_of_nat (rank_desc_min (Loss <$> rows t) loss) / Qc_of_Z (n_yrs t))%Qc.

Definition exfreq (t : Yelt) : list Qc :=
  (λ r, exfreq_of t (Loss r)) <$> rows t.

(** A row of the frame after [pd.concat(..., axis=1).reset_index()]: the
    columns Year, EventID, DayOfYear, Loss and ExFreq. *)
Record EfRow : Type := {
  ef_record : LossRecord;
  ExFreq : Qc
}.

#[global] Instance EfRow_eq_dec : EqDecision EfRow.
Proof. solve_decision. Defined.

(** [sort_values(by=['Loss', 'ExFreq', 'Year', 'DayOfYear'],
                 ascending=(False, True, False, False))]:
    [ef_order a b] says that [a] may stand before [b]. *)
Definition ef_order (a b : EfRow) : Prop :=
  (Loss (ef_record b) < Loss (ef_record a))%Qc ∨
  (Loss (ef_record a) = Loss (ef_record b) ∧
   ((ExFreq a < ExFreq b)%Qc ∨
    (ExFreq a = ExFreq b ∧
     ((Year (ef_record b) < Year (ef_record a))%Z ∨
      (Year (ef_record a) = Year (ef_record b) ∧
       (DayOfYear (ef_record b) ≤ DayOfYear (ef_record a))%Z))))).

#[global] Instance ef_order_dec : RelDecision ef_order.
Proof. intros a b. unfold ef_order. apply _. Defined.

(** A frame is sorted on its column values; the index labels follow. *)
Definition by_values {L V : Type} (R : relation V) : relation (L * V) :=
  λ a b, R a.2 b.2.

#[global] Instance by_values_dec {L V : Type} (R : relation V)
  `{!RelDecision R} : RelDecision (by_values (L:=L) R).
Proof. intros a b. unfold by_values. apply _. Defined.

(** The curve is a frame whose rows carry an index label.  With
    [keep_index] the columns are those of [EfRow]; without, only
    (Loss, ExFreq) remain. *)
Inductive EfCurve : Type :=
  | KeyedCurve (frame : list (nat * EfRow))
  | PlainCurve (frame : list (nat * (Qc * Qc))).

#[global] Instance EfCurve_eq_dec : EqDecision EfCurve.
Proof. solve_decision. Defined.

(** [DataFrame.drop_duplicates()]: a row is dropped when an earlier row has
    the same column values; labels are not compared. *)
Fixpoint drop_duplicates {L V : Type} `{!EqDecision V}
    (seen : list V) (frame : list (L * V)) : list (L * V) :=
  match frame with
  | [] => []
  | (i, v) :: frame' =>
      if decide (v ∈ seen) then drop_duplicates seen frame'
      else (i, v) :: drop_duplicates (v :: seen) frame'
  end.

(** [reset_index(drop=True)]: the labels become 0, 1, 2, ... *)
Definition reset_index {L V : Type} (frame : list (L * V)) : list (nat * V) :=
  imap (λ i r, (i, r.2)) frame.

Definition to_ef_curve (t : Yelt) (keep_index : bool) : EfCurve :=
  let ef_curve := zip_with Build_EfRow (rows t) (exfreq t) in
  let ef_curve := imap (λ i r, (i, r)) ef_curve in
  let ef_curve := sort_stable (by_values ef_order) ef_curve in
  if keep_index then KeyedCurve (reset_index ef_curve)
  else
    let dropped := prod_map id (λ r, (Loss (ef_record r), ExFreq r)) <$> ef_curve in
    PlainCurve (reset_index (drop_duplicates [] dropped)).

(** Column access: [ef_curve['Loss']], [ef_curve['ExFreq']] and the index
    named 'Order'. *)
Definition curve_Loss (c : EfCurve) : list Qc :=
  match c with
  | KeyedCurve f => (λ r, Loss (ef_record r.2)) <$> f
  | PlainCurve f => (λ r, r.2.1) <$> f
  end.

Definition curve_ExFreq (c : EfCurve) : list Qc :=
  match c with
  | KeyedCurve f => (λ r, ExFreq r.2) <$> f
  | PlainCurve f => (λ r, r.2.2) <$> f
  end.

Definition curve_Order (c : EfCurve) : list nat :=
  match c with
  | KeyedCurve f => fst <$> f
  | PlainCurve f => fst <$> f
  end.

(** ** [apply_layer] *)

(** [sort_index(level=['Year', 'DayOfYear', 'EventID'])]. *)
Definition index_order (a b : LossRecord) : Prop :=
  (Year a < Year b)%Z ∨
  (Year a = Year b ∧
   ((DayOfYear a < DayOfYear b)%Z ∨
    (DayOfYear a = DayOfYear b ∧ (EventID a ≤ EventID b)%Z))).

#[global] Instance index_order_dec : RelDecision index_order.
Proof. intros a b. unfold index_order. apply _. Defined.

(** [groupby('Year').head(n)]: a row is kept when fewer than [n] rows of
    its year stand before it; [seen] counts the rows met so far per year.
    The cap is a number of occurrences, hence a natural number. *)
Fixpoint groupby_head (n : nat) (seen : gmap Z nat) (l : list LossRecord)
    : list LossRecord :=
  match l with
  | [] => []
  | r :: l' =>
      let c := default 0 (seen !! Year r) in
      let rest := groupby_head n (<[Year r := S c]> seen) l' in
      if decide (c < n) then r :: rest else rest
  end.

Definition apply_layer (t : Yelt) (limit : option Qc) (xs : Qc)
    (n_loss : option nat) (is_franchise : bool) : result (list LossRecord) :=
  if decide (0 ≤ xs)%Qc then
    let layer_losses :=
      (λ r, with_loss r (clip_upper limit (clip_lower 0 (Loss r - xs))))
      <$> rows t in
    let layer_losses := filter (λ r, (0 < Loss r)%Qc) layer_losses in
    let layer_losses :=
      if is_franchise
      then (λ r, with_loss r (Loss r + xs)) <$> layer_losses
      else layer_losses in
    let layer_losses :=
      match n_loss with
      | Some n => groupby_head n ∅ (sort_stable index_order layer_losses)
      | None => layer_losses
      end in
    Ok layer_losses
  else Raise (AssertionError "Lower loss must be >= 0").

(** ** The store of numpy arrays *)

Abbreviation loc := positive.
Abbreviation heap := (gmap positive (list npfloat)).

(** Computations that read and write the store and may raise. *)
Definition M (A : Type) : Type := heap → result A * heap.

#[global] Instance M_ret : MRet M := λ A a σ, (Ok a, σ).

#[global] Instance M_bind : MBind M := λ A B f m σ,
  match m σ with
  | (Ok a, σ') => f a σ'
  | (Raise e, σ') => (Raise e, σ')
  end.

Definition lift {A : Type} (r : result A) : M A := λ σ, (r, σ).

(** A new array object holding [v]. *)
Definition alloc (v : list npfloat) : M loc :=
  λ σ, let l := fresh (dom σ) in (Ok l, <[l := v]> σ).

(** The contents of an array.  A reference held by a running program is
    always bound; an unbound one reads as the empty array. *)
Definition load (l : loc) : M (list npfloat) :=
  λ σ, (Ok (default [] (σ !! l)), σ).

Definition store (l : loc) (v : list npfloat) : M unit :=
  λ σ, (Ok (), <[l := v]> σ).

(** [np.array(x)] (copy=True by default) and [a.astype(float)] (likewise):
    each returns a new array with the same values. *)
Definition np_array (x : loc) : M loc := v ← load x; alloc v.

Definition astype_float (a : loc) : M loc := v ← load a; alloc v.

(** [a[mask(a)] = x]: an in-place write into the array [a]. *)
Definition set_where (a : loc) (mask : npfloat → bool) (x : npfloat) : M unit :=
  v ← load a; store a ((λ y, if mask y then x else y) <$> v).

(** [rp <= 0.0]; a comparison with NaN is false. *)
Definition le_zero (rp : npfloat) : bool :=
  match rp with
  | Fin q => bool_decide (q ≤ 0)%Qc
  | _ => false
  end.

(** [1 / rp], element-wise.  After the mask no entry is zero or negative. *)
Definition reciprocal (rp : npfloat) : npfloat :=
  match rp with
  | NaN => NaN
  | PInf => Fin 0
  | Fin q => if decide (q = 0%Qc) then PInf else Fin (1 / q)
  end.

(** ** [np.interp] *)

(** The interval search and the evaluation on it: with [p0] the point at
    index j and [x] not below it, move right while [x] is not below the next
    point; numpy finds the same j by bisection. *)
Fixpoint interp_from (x : Qc) (p0 : Qc * Qc) (ps : list (Qc * Qc)) : Qc :=
  match ps with
  | [] => p0.2
  | p1 :: ps' =>
      if decide (x < p1.1)%Qc then
        if decide (p0.1 = x) then p0.2
        else ((p1.2 - p0.2) / (p1.1 - p0.1) * (x - p0.1) + p0.2)%Qc
      else interp_from x p1 ps'
  end.

(** One value of [np.interp].  With a single sample point numpy only
    compares [x] with it: below it the result is [left], above it [right],
    and otherwise the point's value, which is also what a NaN [x] gets, as
    it compares false both ways.  With more sample points NaN stays NaN;
    above the last sample point the result is [right] and below the first
    it is [left], tested in this order. *)
Definition interp1 (p0 : Qc * Qc) (ps : list (Qc * Qc)) (left right : npfloat)
    (x : npfloat) : npfloat :=
  match ps with
  | [] =>
      match x with
      | NaN => Fin p0.2
      | PInf => right
      | Fin q =>
          if decide (q < p0.1)%Qc then left
          else if decide (p0.1 < q)%Qc then right
          else Fin p0.2
      end
  | _ :: _ =>
      match x with
      | NaN => NaN
      | PInf => right
      | Fin q =>
          if decide ((List.last ps p0).1 < q)%Qc then right
          else if decide (q < p0.1)%Qc then left
          else Fin (interp_from q p0 ps)
      end
  end.

Definition np_interp (x : list npfloat) (xp fp : list Qc)
    (left right : npfloat) : result (list npfloat) :=
  match xp, fp with
  | [], _ => Raise (ValueError "array of sample points is empty")
  | x0 :: xp', f0 :: fp' =>
      if decide (length xp' = length fp')
      then Ok (interp1 (x0, f0) (zip xp' fp') left right <$> x)
      else Raise (ValueError "fp and xp are not of the same length.")
  | _ :: _, [] => Raise (ValueError "fp and xp are not of the same length.")
  end.

(** ** [loss_at_rp] *)

(** [s.iloc[0]]. *)
Definition iloc0 {A : Type} (s : list A) : result A :=
  match s with
  | x :: _ => Ok x
  | [] => Raise (IndexError "single positional indexer is out-of-bounds")
  end.

(** [return_periods] is the caller's list or array; [keep_index] is the one
    option of [to_ef_curve] that [**kwargs] can carry; the options of
    [rank] that it could carry as well stay at their defaults. *)
Definition loss_at_rp (t : Yelt) (keep_index : bool) (return_periods : loc)
    : M (list npfloat) :=
  let ef_curve := to_ef_curve t keep_index in
  max_loss ← lift (iloc0 (curve_Loss ef_curve));
  return_periods ← np_array return_periods ≫= astype_float;
  set_where return_periods le_zero NaN;;
  rp ← load return_periods;
  lift (np_interp (reciprocal <$> rp)
          (curve_ExFreq ef_curve) (curve_Loss ef_curve)
          (Fin max_loss) (Fin 0)).

(** ** [to_ep_summary] and [to_ep_summaries] *)

(** The series of losses per return period built by [to_ep_summary]. *)
Record EpSeries : Type := {
  ep_name : string;
  ep_index_name : string;
  ep_index : list npfloat;
  ep_values : list npfloat
}.

(** The frame of [pd.concat(..., axis=1)]: named columns over one index. *)
Record EpFrame : Type := {
  frame_index : list npfloat;
  frame_columns : list (string * list npfloat)
}.

(** [pd.Series(data, index=pd.Index(idx, name=index_name), name=name)]. *)
Definition pd_Series (data idx : list npfloat) (index_name name : string)
    : result EpSeries :=
  if decide (length data = length idx)
  then Ok {| ep_name := name; ep_index_name := index_name;
             ep_index := idx; ep_values := data |}
  else Raise (ValueError "Length of values does not match length of index").

(** The two kinds of object that [to_ep_summaries] calls methods on. *)
Inductive pyobj : Type :=
  | PySeries (s : EpSeries)
  | PyArray (a : list npfloat).

(** [o.meth(arg)]: attribute lookup, then the call.  Of the names used in
    this module a Series has [rename]; an ndarray has none of them. *)
Definition call_method (o : pyobj) (meth arg : string) : result pyobj :=
  match o with
  | PySeries s =>
      if decide (meth = "rename")
      then Ok (PySeries {| ep_name := arg; ep_index_name := ep_index_name s;
                           ep_index := ep_index s; ep_values := ep_values s |})
      else Raise (AttributeError
                    ("'Series' object has no attribute '" +:+ meth +:+ "'"))
  | PyArray _ =>
      Raise (AttributeError
               ("'numpy.ndarray' object has no attribute '" +:+ meth +:+ "'"))
  end.

(** [pd.concat(objs, axis=1)] of series over the same index. *)
Fixpoint concat_columns (objs : list pyobj) : result (list (string * list npfloat)) :=
  match objs with
  | [] => Ok []
  | PySeries s :: objs' =>
      match concat_columns objs' with
      | Ok cols => Ok ((ep_name s, ep_values s) :: cols)
      | Raise e => Raise e
      end
  | PyArray _ :: _ =>
      Raise (TypeError "cannot concatenate object of type ndarray")
  end.

Definition pd_concat (idx : list npfloat) (objs : list pyobj) : result EpFrame :=
  match concat_columns objs with
  | Ok cols => Ok {| frame_index := idx; frame_columns := cols |}
  | Raise e => Raise e
  end.

(** The [ylt] accessor of a year loss table belongs to another module of the
    package ([cattbl.ylt]), which is not among the sources at hand; the two
    summary functions take its [loss_at_rp] as a parameter. *)
Section ep_summary.
Variable ylt_loss_at_rp : Ylt → loc → M (list npfloat).

Definition to_ep_summary (t : Yelt) (return_periods : loc)
    (is_occurrence : bool) : M EpSeries :=
  let ylt := to_ylt t is_occurrence in
  losses ← ylt_loss_at_rp ylt return_periods;
  idx ← load return_periods;
  lift (pd_Series losses idx "ReturnPeriod" "Loss").

Definition to_ep_summaries (t : Yelt) (return_periods : loc) (is_eef : bool)
    : M EpFrame :=
  aep ← to_ep_summary t return_periods false;
  oep ← to_ep_summary t return_periods true;
  aep' ← lift (call_method (PySeries aep) "rename" "LossPerYear");
  oep' ← lift (call_method (PySeries oep) "renaem" "MaxEventLossPerYear");
  if is_eef then
    eef ← loss_at_rp t false return_periods;
    eef' ← lift (call_method (PyArray eef) "rename" "EventLoss");
    lift (pd_concat (ep_index aep) [aep'; oep'; eef'])
  else
    lift (pd_concat (ep_index aep) [aep'; oep']).
End ep_summary.

(** Modelled from the spec: the [loss_at_rp] of the [ylt] accessor.  It
    interpolates, as the table's own does, against the year loss table's own
    exceedance curve: it is the interpolation above on the table that has
    one record per year. *)
Definition ylt_loss_at_rp (s : Ylt) (return_periods : loc) : M (list npfloat) :=
  loss_at_rp
    {| n_yrs := ylt_n_yrs s;
       rows := (λ p, {| Year := p.1; EventID := 0; DayOfYear := 0; Loss := p.2 |})
               <$> ylt_rows s |}
    false return_periods.

(** ** The candidate series and [_validate] *)

Definition COL_YEAR : string := "Year".
Definition COL_EVENT : string := "EventID".
Definition COL_DAY : string := "DayOfYear".
Definition COL_LOSS : string := "Loss".
Definition INDEX_NAMES : list string := [COL_YEAR; COL_DAY; COL_EVENT].

(** One level of the index with its values row by row
    ([get_level_values]); the constructor is the level's dtype. *)
Inductive IndexLevel : Type :=
  | IntLevel (v : list Z)
  | FloatLevel (v : list Qc)
  | ObjectLevel (v : list string).

(** The values of the series, numeric or not. *)
Inductive SeriesValues : Type :=
  | NumericValues (v : list Qc)
  | ObjectValues (v : list string).

(** Any pandas Series that the accessor may be asked to wrap. *)
Record Series : Type := {
  index_names : list string;
  index_levels : list IndexLevel;
  values : SeriesValues;
  attrs : gmap string Z
}.

Inductive cell : Type :=
  | IntCell (z : Z)
  | FloatCell (q : Qc)
  | StrCell (s : string).

#[global] Instance cell_eq_dec : EqDecision cell.
Proof. solve_decision. Defined.

Definition level_cells (l : IndexLevel) : list cell :=
  match l with
  | IntLevel v => IntCell <$> v
  | FloatLevel v => FloatCell <$> v
  | ObjectLevel v => StrCell <$> v
  end.

Definition series_len (obj : Series) : nat :=
  match values obj with
  | NumericValues v => length v
  | ObjectValues v => length v
  end.

(** The index entries, one tuple per row. *)
Definition index_tuples (obj : Series) : list (list (option cell)) :=
  (λ i, (λ l, level_cells l !! i) <$> index_levels obj) <$> seq 0 (series_len obj).

Definition is_integer_dtype (l : IndexLevel) : bool :=
  match l with IntLevel _ => true | _ => false end.

Definition is_numeric_dtype (v : SeriesValues) : bool :=
  match v with NumericValues _ => true | _ => false end.

Definition dtype_repr (l : IndexLevel) : string :=
  match l with
  | IntLevel _ => "dtype('int64')"
  | FloatLevel _ => "dtype('float64')"
  | ObjectLevel _ => "dtype('O')"
  end.

Definition dtype_name (v : SeriesValues) : string :=
  match v with
  | NumericValues _ => "float64"
  | ObjectValues _ => "object"
  end.

Fixpoint join (sep : string) (l : list string) : string :=
  match l with
  | [] => EmptyString
  | [s] => s
  | s :: l' => s +:+ sep +:+ join sep l'
  end.

(** [obj.index.get_level_values(name)] for an integer level: the level
    that stands where [name] stands among the index names. *)
Definition get_level_values (obj : Series) (name : string) : list Z :=
  match list_find (λ n, n = name) (index_names obj) with
  | Some (i, _) =>
      match index_levels obj !! i with
      | Some (IntLevel v) => v
      | _ => []
      end
  | None => []
  end.

(** [Index.min()] and [Index.max()]; on an empty index they are NaN, and
    every comparison with NaN is false. *)
Definition index_min (l : list Z) : option Z :=
  match l with
  | [] => None
  | x :: l' => Some (foldl Z.min x l')
  end.

Definition index_max (l : list Z) : option Z :=
  match l with
  | [] => None
  | x :: l' => Some (foldl Z.max x l')
  end.

Definition lt_num (a : option Z) (b : Z) : bool :=
  match a with Some x => bool_decide (x < b)%Z | None => false end.

Definition gt_num (a : option Z) (b : Z) : bool :=
  match a with Some x => bool_decide (x > b)%Z | None => false end.

(** The seven errors of [_validate]. *)
Definition err_levels : exn := AttributeError "Expecting 3 index levels".

Definition err_names : exn :=
  AttributeError "Expecting index names ['Year', 'DayOfYear', 'EventID']".

Definition err_index_dtype (obj : Series) : exn :=
  TypeError ("Indices must all be integer types. Currently: " +:+
             "[" +:+ join ", " (dtype_repr <$> index_levels obj) +:+ "]").

Definition err_loss_dtype (obj : Series) : exn :=
  TypeError ("Series should be numeric. It is " +:+ dtype_name (values obj)).

Definition err_n_yrs : exn :=
  AttributeError "Must have 'n_yrs' in the series attrs".

Definition err_unique : exn :=
  AttributeError
    "Combinations of ['Year', 'DayOfYear', 'EventID'] not unique".

Definition err_years : exn :=
  AttributeError "Years in index are out of range 1,n_yrs".

Definition _validate (obj : Series) : result unit :=
  if decide (length (index_names obj) ≠ 3) then Raise err_levels
  else if negb (forallb (λ c, bool_decide (c ∈ index_names obj)) INDEX_NAMES)
  then Raise err_names
  else if negb (forallb is_integer_dtype (index_levels obj))
  then Raise (err_index_dtype obj)
  else if negb (is_numeric_dtype (values obj))
  then Raise (err_loss_dtype obj)
  else
    match attrs obj !! "n_yrs" with
    | None => Raise err_n_yrs
    | Some n =>
        if negb (bool_decide (NoDup (index_tuples obj))) then Raise err_unique
        else
          let years := get_level_values obj COL_YEAR in
          if lt_num (index_min years) 1 || gt_num (index_max years) n
          then Raise err_years
          else Ok ()
    end.

(** The rows of a validated series, each index level read by its name. *)
Definition series_rows (obj : Series) : list LossRecord :=
  let losses := match values obj with NumericValues v => v | _ => [] end in
  zip_with (λ k l, {| Year := k.1.1; EventID := k.1.2; DayOfYear := k.2; Loss := l |})
    (zip (zip (get_level_values obj COL_YEAR) (get_level_values obj COL_EVENT))
         (get_level_values obj COL_DAY))
    losses.

(** [YearEventLossTable.__init__]: validate, then wrap. *)
Definition YearEventLossTable (obj : Series) : result Yelt :=
  match _validate obj with
  | Ok _ =>
      Ok {| n_yrs := default 0%Z (attrs obj !! "n_yrs"); rows := series_rows obj |}
  | Raise e => Raise e
  end.

(** ** Vocabulary of the statements *)

(** *** The layer engine *)

Definition Qcmin (a b : Qc) : Qc := if decide (b < a)%Qc then b else a.

(** The layered loss as the specification writes it:
    min(max(loss - xs, 0), limit), without the min when there is no limit. *)
Definition layer_loss (limit : option Qc) (xs loss : Qc) : Qc :=
  match limit with
  | Some l => Qcmin (Qcmax (loss - xs) 0) l
  | None => Qcmax (loss - xs) 0
  end.

(** The limit lets a positive loss through. *)
Definition limit_open (limit : option Qc) : Prop :=
  match limit with
  | Some l => (0 < l)%Qc
  | None => True
  end.


(** The surviving records before the occurrence cap. *)
Definition survivors (t : Yelt) (limit : option Qc) (xs : Qc)
    (is_franchise : bool) : list LossRecord :=
  (λ r, with_loss r (if is_franchise
                     then layer_loss limit xs (Loss r) + xs
                     else layer_loss limit xs (Loss r))%Qc)
  <$> filter (λ r, (0 < layer_loss limit xs (Loss r))%Qc) (rows t).

(** Two records with the same key. *)
Definition same_key (a b : LossRecord) : Prop := key a = key b.

(** *** Validation *)

#[global] Instance valid_yelt_dec (t : Yelt) : Decision (valid_yelt t).
Proof.
  refine (cast_if (decide (NoDup (key <$> rows t) ∧
                           Forall (λ r, (1 ≤ Year r ≤ n_yrs t)%Z) (rows t))));
    unfold valid_yelt; rewrite <-Forall_forall; done.
Defined.

(** The invariants of a year-event-loss table, as the data model states
    them. *)
Definition index_shape (obj : Series) : Prop :=
  index_names obj ≡ₚ [COL_YEAR; COL_EVENT; COL_DAY].

Definition integer_keys (obj : Series) : Prop :=
  Forall (λ l, ∃ v, l = IntLevel v) (index_levels obj).

Definition numeric_loss (obj : Series) : Prop :=
  ∃ v, values obj = NumericValues v.

Definition unique_keys (obj : Series) : Prop := NoDup (index_tuples obj).

Definition years_in_range (obj : Series) (n : Z) : Prop :=
  ∀ y, y ∈ get_level_values obj COL_YEAR → (1 ≤ y ≤ n)%Z.

Definition yelt_invariants (obj : Series) : Prop :=
  index_shape obj ∧ integer_keys obj ∧ numeric_loss obj ∧
  (∃ n, attrs obj !! "n_yrs" = Some n ∧ years_in_range obj n) ∧
  unique_keys obj.

(** What pandas guarantees of any Series with a MultiIndex: one name per
    level, and every level as long as the series. *)
Definition well_formed (obj : Series) : Prop :=
  length (index_levels obj) = length (index_names obj) ∧
  Forall (λ l, length (level_cells l) = series_len obj) (index_levels obj).

(** *** The curve *)

(** The rows of the frame that [to_ef_curve] sorts, and the sorted frame. *)
Definition ef_rows (t : Yelt) : list EfRow :=
  (λ r, {| ef_record := r; ExFreq := exfreq_of t (Loss r) |}) <$> rows t.

Definition sorted_frame (t : Yelt) : list (nat * EfRow) :=
  sort_stable (by_values ef_order) (imap (λ i r, (i, r)) (ef_rows t)).

(** The (Loss, ExFreq) rows that are left once the key columns and the
    duplicates are dropped. *)
Definition plain_values (t : Yelt) : list (Qc * Qc) :=
  (drop_duplicates []
     (prod_map id (λ r, (Loss (ef_record r), ExFreq r)) <$> sorted_frame t)).*2.

(** The points handed to the interpolation: x = ExFreq, y = Loss. *)
Definition curve_points (c : EfCurve) : list (Qc * Qc) :=
  zip (curve_ExFreq c) (curve_Loss c).

Definition point_of (r : EfRow) : Qc * Qc := (ExFreq r, Loss (ef_record r)).

(** [p] may stand before [q] on the curve: the loss does not grow, the
    frequency does not fall, and it rises where the loss falls. *)
Definition point_order (p q : Qc * Qc) : Prop :=
  (q.2 ≤ p.2)%Qc ∧ (p.1 ≤ q.1)%Qc ∧ ((q.2 < p.2)%Qc → (p.1 < q.1)%Qc).

(** *** Interpolation *)





(** The curve has a single row: with [keep_index] the table has a single
    record; without, all its records share one loss. *)
Definition single_point (t : Yelt) (keep_index : bool) : Prop :=
  if keep_index then length (rows t) = 1
  else ∀ r1 r2, r1 ∈ rows t → r2 ∈ rows t → Loss r1 = Loss r2.

(** ** Examples *)

Definition record (y e d : Z) (l : Z) : LossRecord :=
  {| Year := y; EventID := e; DayOfYear := d; Loss := Qc_of_Z l |}.

(** Two events in year 1, losses 100 and 10. *)
Definition layer_example : Yelt :=
  {| n_yrs := 10; rows := [record 1 1 10 100; record 1 2 20 10] |}.

(** Year 1 has two events, on days 30 and 12, with losses 100 and 60; year
    2 has one with loss 80.  The curve is (100, 0.1), (80, 0.2), (60, 0.3). *)
Definition cap_example : Yelt :=
  {| n_yrs := 10; rows := [record 1 1 30 100; record 1 2 12 60; record 2 3 5 80] |}.

(** Year 1 has a loss of 100 and a loss of 0; year 2 has two negative
    values (a numeric series may hold them). *)
Definition ylt_example : Yelt :=
  {| n_yrs := 10;
     rows := [record 1 1 10 100; record 1 2 20 0;
              record 2 3 5 (-5); record 2 4 6 (-3)] |}.

(** Two events share the loss 100. *)
Definition tie_example : Yelt :=
  {| n_yrs := 10;
     rows := [record 1 1 10 100; record 1 2 20 50;
              record 2 3 5 200; record 2 4 5 100] |}.



Definition shared_loss_example : Yelt :=
  {| n_yrs := 10; rows := [record 1 1 10 100; record 2 2 20 100] |}.

(** The return periods of the examples, held by the caller at reference 1:
    100, 4, 1, 0 and -3. *)
Definition rp_store : heap :=
  {[ 1%positive := [Fin (Qc_of_Z 100); Fin (Qc_of_Z 4); Fin (Qc_of_Z 1);
                    Fin 0%Qc; Fin (Qc_of_Z (-3))] ]}.

(** The series of the end-to-end example: losses 100, 50 and 200 in the
    years 1, 1 and 2 of ten; and a series that repeats a key. *)
Definition good_series : Series :=
  {| index_names := [COL_YEAR; COL_EVENT; COL_DAY];
     index_levels := [IntLevel [1; 1; 2]; IntLevel [1; 2; 3]; IntLevel [10; 20; 5]]%Z;
     values := NumericValues [Qc_of_Z 100; Qc_of_Z 50; Qc_of_Z 200];
     attrs := {[ "n_yrs" := 10%Z ]} |}.

Definition duplicate_series : Series :=
  {| index_names := [COL_YEAR; COL_EVENT; COL_DAY];
     index_levels := [IntLevel [1; 1]; IntLevel [7; 7]; IntLevel [10; 10]]%Z;
     values := NumericValues [Qc_of_Z 100; Qc_of_Z 50];
     attrs := {[ "n_yrs" := 10%Z ]} |}.

(** ** [aal], [freq0] and [layer_aal] *)

(** The float that a division returns: numpy does not raise on a zero
    divisor, it returns NaN for 0/0 and an infinity otherwise. *)
Inductive npscalar : Type :=
  | Finite (q : Qc)
  | NotANumber
  | Infinity (negative : bool).

#[global] Instance npscalar_eq_dec : EqDecision npscalar.
Proof. solve_decision. Defined.

(** [x / n] for a numpy number [x] and the integer [n]. *)
Definition np_divide (x : Qc) (n : Z) : npscalar :=
  if decide (n = 0%Z) then
    if decide (x = 0%Qc) then NotANumber else Infinity (bool_decide (x < 0)%Qc)
  else Finite (x / Qc_of_Z n).


(** [(self._obj > 0).sum()] counts the records with a positive loss. *)
Definition freq0 (t : Yelt) : npscalar :=
  np_divide (Qc_of_nat (length (filter (λ r, (0 < Loss r)%Qc) (rows t))))
            (n_yrs t).


(** ** [cprob] and [to_severity_curve] *)

(** [Series.rank(ascending=True, method='max')]: the values are ordered
    from the smallest up and a value gets the 1-based position of its last
    occurrence, which is found as the first one from the end. *)
Definition ascending (a b : Qc) : Prop := (a ≤ b)%Qc.

#[global] Instance ascending_dec : RelDecision ascending.
Proof. intros a b. unfold ascending. apply _. Defined.

Definition rank_asc_max (vals : list Qc) (x : Qc) : nat :=
  match list_find (λ y, y = x) (reverse (sort_stable ascending vals)) with
  | Some (i, _) => length vals - i
  | None => 0
  end.

(** The rank divided by [len(self._obj)]; a loss of the table has a table
    with a record, so the divisor is not zero. *)
Definition cprob_of (t : Yelt) (loss : Qc) : Qc :=
  (Qc_of_nat (rank_asc_max (Loss <$> rows t) loss)
   / Qc_of_nat (length (rows t)))%Qc.

Definition cprob (t : Yelt) : list Qc :=
  (λ r, cprob_of t (Loss r)) <$> rows t.

(** A row of the frame after [pd.concat(..., axis=1).reset_index()]: the
    columns Year, EventID, DayOfYear, Loss and CProb. *)
Record SevRow : Type := {
  sev_record : LossRecord;
  CProb : Qc
}.

#[global] Instance SevRow_eq_dec : EqDecision SevRow.
Proof. solve_decision. Defined.

(** [sort_values(by=['Loss', 'CProb', 'Year', 'DayOfYear'],
                 ascending=(True, True, True, True))]. *)
Definition sev_order (a b : SevRow) : Prop :=
  (Loss (sev_record a) < Loss (sev_record b))%Qc ∨
  (Loss (sev_record a) = Loss (sev_record b) ∧
   ((CProb a < CProb b)%Qc ∨
    (CProb a = CProb b ∧
     ((Year (sev_record a) < Year (sev_record b))%Z ∨
      (Year (sev_record a) = Year (sev_record b) ∧
       (DayOfYear (sev_record a) ≤ DayOfYear (sev_record b))%Z))))).

#[global] Instance sev_order_dec : RelDecision sev_order.
Proof. intros a b. unfold sev_order. apply _. Defined.

(** With [keep_index] the columns are those of [SevRow]; without, only
    (Loss, CProb) remain. *)
Inductive SevCurve : Type :=
  | KeyedSeverity (frame : list (nat * SevRow))
  | PlainSeverity (frame : list (nat * (Qc * Qc))).

#[global] Instance SevCurve_eq_dec : EqDecision SevCurve.
Proof. solve_decision. Defined.

Definition to_severity_curve (t : Yelt) (keep_index : bool) : SevCurve :=
  let sev_curve := zip_with Build_SevRow (rows t) (cprob t) in
  let sev_curve := imap (λ i r, (i, r)) sev_curve in
  let sev_curve := sort_stable (by_values sev_order) sev_curve in
  if keep_index then KeyedSeverity (reset_index sev_curve)
  else
    let dropped := prod_map id (λ r, (Loss (sev_record r), CProb r)) <$> sev_curve in
    PlainSeverity (reset_index (drop_duplicates [] dropped)).

(** The columns (Loss, CProb) row by row, and the index named 'Order'. *)
Definition severity_points (c : SevCurve) : list (Qc * Qc) :=
  match c with
  | KeyedSeverity f => (λ r, (Loss (sev_record r.2), CProb r.2)) <$> f
  | PlainSeverity f => snd <$> f
  end.

Definition severity_Order (c : SevCurve) : list nat :=
  match c with
  | KeyedSeverity f => fst <$> f
  | PlainSeverity f => fst <$> f
  end.

(** ** [from_cols] *)

Definition values_len (v : SeriesValues) : nat :=
  match v with
  | NumericValues v => length v
  | ObjectValues v => length v
  end.

(** The error of [pd.DataFrame] on columns of different lengths, and the
    one that [from_cols] raises in place of that of [set_index]. *)
Definition err_lengths : exn :=
  ValueError "All arrays must be of the same length".

Definition err_duplicates : exn :=
  ValueError
    "You cannot have duplicate combinations of ['Year', 'DayOfYear', 'EventID']".

(** The columns are lists or arrays, each with the dtype that pandas gives
    it.  The frame is built first, which checks the lengths; then the three
    key columns become the index, in the order Year, EventID, DayOfYear,
    with [verify_integrity]; then [attrs['n_yrs']] is set, and the column
    'Loss' is returned, which carries the frame's [attrs]. *)
Definition from_cols (year eventid dayofyear : IndexLevel) (loss : SeriesValues)
    (n_yrs : Z) : result Series :=
  if decide (length (level_cells year) = values_len loss ∧
             length (level_cells eventid) = values_len loss ∧
             length (level_cells dayofyear) = values_len loss)
  then
    let new_yelt :=
      {| index_names := [COL_YEAR; COL_EVENT; COL_DAY];
         index_levels := [year; eventid; dayofyear];
         values := loss;
         attrs := ∅ |} in
    if decide (NoDup (index_tuples new_yelt))
    then Ok {| index_names := index_names new_yelt;
               index_levels := index_levels new_yelt;
               values := values new_yelt;
               attrs := <["n_yrs" := n_yrs]> (attrs new_yelt) |}
    else Raise err_duplicates
  else Raise err_lengths.

(** *** Vocabulary of the further statements *)

(** The number of values that are not above [x]. *)
Definition count_le (vals : list Qc) (x : Qc) : nat :=
  length (filter (λ y, (y ≤ x)%Qc) vals).


(** An entry of the array of return periods that is above zero. *)
Definition positive_rp (x : npfloat) : Prop :=
  match x with
  | Fin q => (0 < q)%Qc
  | PInf => True
  | NaN => False
  end.


(** The rows of the table built from integer key columns and losses. *)
Definition cols_rows (year eventid dayofyear : list Z) (loss : list Qc)
    : list LossRecord :=
  zip_with (λ k l, {| Year := k.1.1; EventID := k.1.2; DayOfYear := k.2; Loss := l |})
    (zip (zip year eventid) dayofyear) loss.

(** The rows of the frame that [to_severity_curve] sorts, the sorted frame,
    and the (Loss, CProb) rows that are left once the key columns and the
    duplicates are dropped. *)
Definition sev_rows (t : Yelt) : list SevRow :=
  (λ r, {| sev_record := r; CProb := cprob_of t (Loss r) |}) <$> rows t.

Definition sev_frame (t : Yelt) : list (nat * SevRow) :=
  sort_stable (by_values sev_order) (imap (λ i r, (i, r)) (sev_rows t)).

Definition sev_values (t : Yelt) : list (Qc * Qc) :=
  (drop_duplicates []
     (prod_map id (λ r, (Loss (sev_record r), CProb r)) <$> sev_frame t)).*2.


(** * Properties *)

(** ** Order reasoning on [Qc]

    Comparisons and sums of [Qc] values are sent to [Q], where [lra]
    decides them. *)

Lemma Qc_eq_iff (x y : Qc) : x = y ↔ (this x == this y)%Q.
Proof. split; [intros ->; reflexivity | apply Qc_is_canon]. Qed.

Ltac qc_norm :=
  repeat match goal with
  | H : @eq Qc _ _ |- _ => apply Qc_eq_iff in H
  | H : ¬ @eq Qc _ _ |- _ => rewrite Qc_eq_iff in H
  | |- @eq Qc _ _ => apply Qc_eq_iff
  | |- ¬ @eq Qc _ _ => rewrite Qc_eq_iff
  end;
  unfold Qcle, Qclt, Qcminus, Qcplus, Qcopp, Q2Qc in *; cbn [this] in *;
  repeat (setoid_rewrite Qred_correct);
  repeat match goal with
  | H : _ |- _ => progress (setoid_rewrite Qred_correct in H)
  end.

Ltac qc_lra := qc_norm; lra.

(** ** The stable sort *)

Section stable_sort_facts.
Context {A : Type} (R : relation A) `{!RelDecision R}.

Lemma sort_insert_Permutation x l : sort_insert R x l ≡ₚ x :: l.
Proof.
  induction l as [|y l IH]; simpl; [done|].
  case_decide; [done|]. rewrite IH. apply Permutation_swap.
Qed.

Lemma sort_stable_Permutation l : sort_stable R l ≡ₚ l.
Proof.
  induction l as [|x l IH]; simpl; [done|].
  rewrite sort_insert_Permutation. by f_equiv.
Qed.

Lemma elem_of_sort_stable x l : x ∈ sort_stable R l ↔ x ∈ l.
Proof. by rewrite sort_stable_Permutation. Qed.

Lemma length_sort_stable l : length (sort_stable R l) = length l.
Proof. by rewrite sort_stable_Permutation. Qed.

Context `{!Transitive R} `{!Total R}.

Lemma sort_insert_sorted x l :
  StronglySorted R l → StronglySorted R (sort_insert R x l).
Proof.
  induction 1 as [|y l Hl IH Hy]; simpl.
  - repeat constructor.
  - case_decide as Hxy.
    + constructor; [by constructor|].
      constructor; [done|]. eapply Forall_impl; [exact Hy|].
      intros z Hz. by trans y.
    + constructor; [done|].
      rewrite sort_insert_Permutation. constructor; [|done].
      by destruct (total R x y).
Qed.

Lemma sort_stable_sorted l : StronglySorted R (sort_stable R l).
Proof.
  induction l as [|x l IH]; simpl; [constructor|].
  by apply sort_insert_sorted.
Qed.
End stable_sort_facts.

#[global] Instance index_order_trans : Transitive index_order.
Proof. intros a b c. unfold index_order. lia. Qed.

#[global] Instance index_order_total : Total index_order.
Proof. intros a b. unfold index_order. lia. Qed.

(** ** The layer engine *)

Lemma clip_is_layer_loss limit xs loss :
  clip_upper limit (clip_lower 0 (loss - xs)) = layer_loss limit xs loss.
Proof.
  unfold clip_upper, clip_lower, layer_loss, Qcmin, Qcmax.
  destruct limit as [l|]; repeat case_decide; try done; qc_lra.
Qed.

Lemma layer_loss_pos limit xs loss :
  (0 < layer_loss limit xs loss)%Qc ↔ (xs < loss)%Qc ∧ limit_open limit.
Proof.
  unfold layer_loss, limit_open, Qcmin, Qcmax.
  destruct limit as [l|]; repeat case_decide; split; try intros [? ?];
    try split; try done; qc_lra.
Qed.

Lemma layer_loss_excess limit xs loss :
  (xs < loss)%Qc → layer_loss limit xs loss = clip_upper limit (loss - xs).
Proof.
  intros. unfold layer_loss, clip_upper, Qcmin, Qcmax.
  destruct limit as [l|]; repeat case_decide; try done; qc_lra.
Qed.

Lemma layer_loss_nonneg limit xs loss :
  limit_open limit → (0 ≤ layer_loss limit xs loss)%Qc.
Proof.
  unfold layer_loss, limit_open, Qcmin, Qcmax.
  destruct limit as [l|]; intros; repeat case_decide; qc_lra.
Qed.


Lemma apply_layer_uncapped t limit xs is_franchise :
  (0 ≤ xs)%Qc →
  apply_layer t limit xs None is_franchise = Ok (survivors t limit xs is_franchise).
Proof.
  intros Hxs. unfold apply_layer, survivors. rewrite decide_True by done.
  f_equal. induction (rows t) as [|r l IH]; [by destruct is_franchise|].
  rewrite fmap_cons, !filter_cons. cbn [with_loss Loss].
  rewrite clip_is_layer_loss. case_decide.
  - destruct is_franchise; rewrite !fmap_cons; cbn [with_loss Loss Year EventID DayOfYear];
      f_equal; apply IH.
  - apply IH.
Qed.

Lemma apply_layer_capped t limit xs k is_franchise :
  (0 ≤ xs)%Qc →
  apply_layer t limit xs (Some k) is_franchise =
  Ok (groupby_head k ∅ (sort_stable index_order (survivors t limit xs is_franchise))).
Proof.
  intros Hxs. pose proof (apply_layer_uncapped t limit xs is_franchise Hxs) as H.
  unfold apply_layer in *. rewrite decide_True in H by done.
  rewrite decide_True by done. injection H as H. by rewrite H.
Qed.

Lemma apply_layer_Ok t limit xs n_loss is_franchise out :
  apply_layer t limit xs n_loss is_franchise = Ok out → (0 ≤ xs)%Qc.
Proof. unfold apply_layer. by case_decide. Qed.

Lemma groupby_head_filter k seen l y :
  filter (λ r, Year r = y) (groupby_head k seen l) =
  take (k - default 0 (seen !! y)) (filter (λ r, Year r = y) l).
Proof.
  revert seen. induction l as [|r l IH]; intros seen; simpl.
  { by rewrite filter_nil, take_nil. }
  rewrite (filter_cons _ r l). destruct (decide (Year r = y)) as [E|Hne].
  - case_decide as Hc; rewrite E in Hc.
    + rewrite filter_cons, decide_True by done. rewrite IH, E, lookup_insert_eq.
      simpl. destruct (k - default 0 (seen !! y)) as [|m] eqn:Hm; [lia|].
      simpl. f_equal. f_equal. lia.
    + rewrite IH, E, lookup_insert_eq. simpl.
      replace (k - default 0 (seen !! y)) with 0 by lia.
      replace (k - S (default 0 (seen !! y))) with 0 by lia. done.
  - case_decide.
    + rewrite filter_cons, decide_False by done. by rewrite IH, lookup_insert_ne.
    + by rewrite IH, lookup_insert_ne.
Qed.

Lemma groupby_head_sublist k seen l : groupby_head k seen l `sublist_of` l.
Proof.
  revert seen. induction l as [|r l IH]; intros seen; simpl; [done|].
  case_decide; [by apply sublist_skip | by apply sublist_cons].
Qed.

Lemma elem_of_survivors t limit xs is_franchise r' :
  r' ∈ survivors t limit xs is_franchise ↔
  ∃ r, r ∈ rows t ∧ (xs < Loss r)%Qc ∧ limit_open limit ∧
       r' = with_loss r (if is_franchise
                         then clip_upper limit (Loss r - xs) + xs
                         else clip_upper limit (Loss r - xs))%Qc.
Proof.
  unfold survivors. rewrite list_elem_of_fmap. split.
  - intros (r & -> & Hr). apply list_elem_of_filter in Hr as [Hpos Hr].
    apply layer_loss_pos in Hpos as [Hlt Hopen].
    exists r. rewrite layer_loss_excess by done. done.
  - intros (r & Hr & Hlt & Hopen & ->). exists r.
    rewrite layer_loss_excess by done. split; [done|].
    apply list_elem_of_filter. split; [|done]. by apply layer_loss_pos.
Qed.


(** C2 (amended).  A negative [xs] makes [apply_layer] raise at once,
    whatever the other arguments.  With [xs >= 0], no franchise, no
    occurrence cap and a limit that is absent or positive, every record's
    loss becomes min(max(loss - xs, 0), limit), the records whose layered
    loss is zero are dropped, and the result holds exactly the records whose
    loss strictly exceeds [xs], in table order. *)
Theorem apply_layer_excess (t : Yelt) (limit : option Qc) (xs : Qc) :
  ((xs < 0)%Qc → ∀ n_loss is_franchise,
     apply_layer t limit xs n_loss is_franchise =
     Raise (AssertionError "Lower loss must be >= 0")) ∧
  ((0 ≤ xs)%Qc → limit_open limit →
     ∃ out, apply_layer t limit xs None false = Ok out ∧
       out = filter (λ r, Loss r ≠ 0%Qc)
               ((λ r, with_loss r (layer_loss limit xs (Loss r))) <$> rows t) ∧
       out = (λ r, with_loss r (layer_loss limit xs (Loss r)))
             <$> filter (λ r, (xs < Loss r)%Qc) (rows t)).
Proof.
  split.
  - intros Hneg n_loss is_franchise. unfold apply_layer.
    rewrite decide_False; [done|]. qc_lra.
  - intros Hxs Hopen. eexists. split; [by apply apply_layer_uncapped|].
    unfold survivors. split.
    + induction (rows t) as [|r l IH]; [done|].
      rewrite fmap_cons, !filter_cons. cbn [with_loss Loss].
      pose proof (layer_loss_nonneg limit xs (Loss r) Hopen).
      repeat case_decide; rewrite ?fmap_cons, ?IH; try done; exfalso;
        cbn [with_loss Loss] in *; qc_lra.
    + f_equal. apply list_filter_iff. intros r.
      rewrite layer_loss_pos. tauto.
Qed.

Lemma apply_layer_excess_witness :
  apply_layer layer_example (Some (Qc_of_Z 50)) (Qc_of_Z 20) None false =
  Ok [record 1 1 10 50].
Proof.
  destruct (apply_layer_excess layer_example (Some (Qc_of_Z 50)) (Qc_of_Z 20))
    as [_ H].
  assert (0 ≤ Qc_of_Z 20)%Qc as Hxs by (by vm_compute).
  assert (limit_open (Some (Qc_of_Z 50))) as Hopen by (by vm_compute).
  destruct (H Hxs Hopen) as (out & -> & _ & ->).
  reflexivity.
Defined.

(** C2, as stated, fails: a limit of zero cuts every layered loss to zero,
    so a record whose loss exceeds [xs] is dropped; and with an occurrence
    cap a record whose loss exceeds [xs] is dropped for its position. *)
Lemma apply_layer_drops_losses_above_xs :
  (apply_layer layer_example (Some 0%Qc) (Qc_of_Z 20) None false = Ok [] ∧
   record 1 1 10 100 ∈ rows layer_example ∧
   (Qc_of_Z 20 < Loss (record 1 1 10 100))%Qc) ∧
  (apply_layer cap_example None (Qc_of_Z 20) (Some 1) false =
     Ok [record 1 2 12 40; record 2 3 5 60] ∧
   record 1 1 30 100 ∈ rows cap_example ∧
   (Qc_of_Z 20 < Loss (record 1 1 30 100))%Qc).
Proof.
  repeat split; try (by apply (bool_decide_unpack _); vm_compute).
Qed.



(** The occurrence cap looks at the keys only: records with the same keys,
    whatever their losses, are sorted and cut alike. *)
Lemma index_order_same_key a a' b b' :
  same_key a a' → same_key b b' → index_order a b ↔ index_order a' b'.
Proof.
  unfold same_key, key, index_order. intros Ha Hb.
  injection Ha as Hy He Hd. injection Hb as Hy' He' Hd'.
  by rewrite Hy, He, Hd, Hy', He', Hd'.
Qed.

Lemma sort_insert_same_key x y l1 l2 :
  same_key x y → Forall2 same_key l1 l2 →
  Forall2 same_key (sort_insert index_order x l1) (sort_insert index_order y l2).
Proof.
  intros Hxy. induction 1 as [|a b l1 l2 Hab Hl IH]; simpl.
  - by repeat constructor.
  - pose proof (index_order_same_key _ _ _ _ Hxy Hab) as Hiff.
    destruct (decide (index_order x a)), (decide (index_order y b));
      try tauto; by repeat constructor.
Qed.

Lemma sort_stable_same_key l1 l2 :
  Forall2 same_key l1 l2 →
  Forall2 same_key (sort_stable index_order l1) (sort_stable index_order l2).
Proof.
  induction 1; simpl; [constructor|]. by apply sort_insert_same_key.
Qed.

Lemma groupby_head_same_key k seen l1 l2 :
  Forall2 same_key l1 l2 →
  Forall2 same_key (groupby_head k seen l1) (groupby_head k seen l2).
Proof.
  intros Hl. revert seen.
  induction Hl as [|a b l1 l2 Hab Hl IH]; intros seen; simpl; [constructor|].
  assert (Year a = Year b) as -> by (unfold same_key, key in Hab; congruence).
  case_decide; [constructor; [done|]|]; apply IH.
Qed.

Lemma same_key_fmap l1 l2 :
  Forall2 same_key l1 l2 ↔ key <$> l1 = key <$> l2.
Proof.
  split.
  - induction 1 as [|a b l1 l2 Hab Hl IH]; [done|].
    rewrite !fmap_cons. by f_equal.
  - revert l2. induction l1 as [|a l1 IH]; intros [|b l2] Heq;
      simplify_eq/=; [constructor|].
    constructor; [unfold same_key, key; congruence|by apply IH].
Qed.

(** C4.  With an occurrence cap [k] the result is read off the surviving
    records sorted ascending by (Year, DayOfYear, EventID): of each year it
    keeps the first [k] of them in that order, so no year has more than [k]
    records; and the choice rests on the position alone: survivors with the
    same keys and any other losses leave the same keys in the result. *)
Theorem occurrence_cap_keeps_first (t : Yelt) (limit : option Qc) (xs : Qc)
    (k : nat) (is_franchise : bool) (out : list LossRecord) :
  apply_layer t limit xs (Some k) is_franchise = Ok out →
  ∃ surv, apply_layer t limit xs None is_franchise = Ok surv ∧
    let sorted := sort_stable index_order surv in
    sorted ≡ₚ surv ∧
    StronglySorted index_order sorted ∧
    out `sublist_of` sorted ∧
    (∀ y, filter (λ r, Year r = y) out = take k (filter (λ r, Year r = y) sorted) ∧
          length (filter (λ r, Year r = y) out) ≤ k) ∧
    (∀ surv', key <$> surv' = key <$> surv →
       key <$> groupby_head k ∅ (sort_stable index_order surv') = key <$> out).
Proof.
  intros Hout. pose proof (apply_layer_Ok _ _ _ _ _ _ Hout) as Hxs.
  exists (survivors t limit xs is_franchise).
  split; [by apply apply_layer_uncapped|]. simpl.
  rewrite apply_layer_capped in Hout by done. injection Hout as <-.
  split; [apply sort_stable_Permutation|].
  split; [apply sort_stable_sorted; apply _|].
  split; [apply groupby_head_sublist|].
  split.
  - intros y. rewrite groupby_head_filter, lookup_empty. simpl.
    rewrite Nat.sub_0_r. split; [done|]. rewrite length_take. lia.
  - intros surv' Hkeys. apply same_key_fmap, groupby_head_same_key,
      sort_stable_same_key, same_key_fmap, Hkeys.
Qed.

Lemma occurrence_cap_keeps_first_witness :
  ∃ surv, apply_layer cap_example None (Qc_of_Z 20) None false = Ok surv ∧
    let sorted := sort_stable index_order surv in
    sorted ≡ₚ surv ∧
    StronglySorted index_order sorted ∧
    [record 1 2 12 40; record 2 3 5 60] `sublist_of` sorted ∧
    (∀ y, filter (λ r, Year r = y) [record 1 2 12 40; record 2 3 5 60] =
            take 1 (filter (λ r, Year r = y) sorted) ∧
          length (filter (λ r, Year r = y)
                    [record 1 2 12 40; record 2 3 5 60]) ≤ 1) ∧
    (∀ surv', key <$> surv' = key <$> surv →
       key <$> groupby_head 1 ∅ (sort_stable index_order surv') =
       key <$> [record 1 2 12 40; record 2 3 5 60]).
Proof.
  apply (occurrence_cap_keeps_first cap_example None (Qc_of_Z 20) 1 false).
  by apply (bool_decide_unpack _); vm_compute.
Defined.

(** ** The year loss table *)

Lemma elem_of_group_years l y : y ∈ group_years l ↔ y ∈ Year <$> l.
Proof. unfold group_years. by rewrite elem_of_sort_stable, elem_of_remove_dups. Qed.

Lemma ylt_lookup_to_ylt t is_occurrence y :
  y ∈ Year <$> rows t →
  ylt_lookup (to_ylt t is_occurrence) y =
  Some (if is_occurrence then series_max (year_group (rows t) y)
        else series_sum (year_group (rows t) y)).
Proof.
  intros Hy. apply elem_of_group_years in Hy.
  unfold ylt_lookup, to_ylt. cbn [ylt_rows].
  rewrite list_find_fmap.
  destruct (list_find_elem_of (λ y', y' = y) (group_years (rows t)) y Hy eq_refl)
    as [[i y'] Hfind].
  unfold compose. cbn [fst]. rewrite Hfind.
  apply list_find_Some in Hfind as (_ & -> & _). done.
Qed.

Lemma filter_none {A : Type} (P : A → Prop) `{!∀ x, Decision (P x)} (l : list A) :
  (∀ x, x ∈ l → ¬ P x) → filter P l = [].
Proof.
  induction l as [|a l IH]; intros Hl; [done|].
  rewrite filter_cons, decide_False by (apply Hl; by left).
  apply IH. intros x Hx. apply Hl. by right.
Qed.

Lemma series_max_upper x l :
  foldl Qcmax x l ∈ x :: l ∧ ∀ v, v ∈ x :: l → (v ≤ foldl Qcmax x l)%Qc.
Proof.
  revert x. induction l as [|y l IH]; intros x; simpl.
  - split; [by left|]. intros v ->%list_elem_of_singleton. apply Qcle_refl.
  - destruct (IH (Qcmax x y)) as [Hin Hub]. split.
    + apply elem_of_cons in Hin as [Hin|Hin]; [|by do 2 right].
      rewrite Hin. unfold Qcmax. case_decide; [right; left|left]; done.
    + intros v Hv.
      assert (x ≤ Qcmax x y ∧ y ≤ Qcmax x y)%Qc as [Hx Hy].
      { unfold Qcmax. case_decide; split; qc_lra. }
      pose proof (Hub (Qcmax x y) ltac:(by left)) as Hm.
      apply elem_of_cons in Hv as [->|Hv]; [by etrans|].
      apply elem_of_cons in Hv as [->|Hv]; [by etrans|].
      apply Hub. by right.
Qed.

Lemma series_sum_cons x l : series_sum (x :: l) = (x + series_sum l)%Qc.
Proof. done. Qed.

#[global] Instance series_sum_Permutation : Proper ((≡ₚ) ==> (=)) series_sum.
Proof.
  induction 1 as [|x l1 l2 _ IH|x y l|l1 l2 l3 _ IH1 _ IH2];
    rewrite ?series_sum_cons; [done| by rewrite IH | ring | congruence].
Qed.






(** ** The store *)

(** The state after [loss_at_rp]: two arrays were allocated, and only the
    second was written. *)
Lemma loss_at_rp_run t keep_index rp (σ : heap) max_loss rest :
  curve_Loss (to_ef_curve t keep_index) = max_loss :: rest →
  let v := default [] (σ !! rp) in
  let l1 := fresh (dom σ) in
  let σ1 := <[l1 := v]> σ in
  let l2 := fresh (dom σ1) in
  loss_at_rp t keep_index rp σ =
  (np_interp (reciprocal <$> ((λ y, if le_zero y then NaN else y) <$> v))
     (curve_ExFreq (to_ef_curve t keep_index))
     (curve_Loss (to_ef_curve t keep_index)) (Fin max_loss) (Fin 0),
   <[l2 := (λ y, if le_zero y then NaN else y) <$> v]> (<[l2 := v]> σ1)).
Proof.
  intros Hc. unfold loss_at_rp. rewrite Hc. simpl.
  unfold mbind, M_bind, lift, np_array, astype_float, set_where, load, alloc,
    store, mbind, M_bind. simpl.
  rewrite !lookup_insert_eq. simpl. done.
Qed.

Lemma loss_at_rp_empty t keep_index rp (σ : heap) :
  curve_Loss (to_ef_curve t keep_index) = [] →
  loss_at_rp t keep_index rp σ =
  (Raise (IndexError "single positional indexer is out-of-bounds"), σ).
Proof. intros Hc. unfold loss_at_rp. by rewrite Hc. Qed.

(** C10.  [loss_at_rp] leaves the caller's [return_periods] as it was:
    whatever the call returns or raises, the array at the caller's reference
    holds the same values afterwards, non-positive entries included, and so
    does every other array that existed before the call; the NaN are written
    into a copy. *)
Theorem loss_at_rp_preserves_input (t : Yelt) (keep_index : bool)
    (return_periods : loc) (σ : heap) :
  ∀ (a : loc) (v : list npfloat),
    σ !! a = Some v →
    (loss_at_rp t keep_index return_periods σ).2 !! a = Some v.
Proof.
  intros a v Ha.
  destruct (curve_Loss (to_ef_curve t keep_index)) as [|m rest] eqn:Hc.
  { by rewrite loss_at_rp_empty. }
  erewrite loss_at_rp_run by done. cbn [snd].
  assert (a ∈ dom σ) as Hdom by (apply elem_of_dom; eauto).
  pose proof (is_fresh (dom σ)) as Hf1.
  set (σ1 := <[fresh (dom σ) := default [] (σ !! return_periods)]> σ) in *.
  pose proof (is_fresh (dom σ1)) as Hf2.
  assert (a ∈ dom σ1) as Hdom1 by (unfold σ1; set_solver).
  rewrite !lookup_insert_ne by (intros <-; done).
  unfold σ1. rewrite lookup_insert_ne by (intros <-; done). done.
Qed.

Lemma loss_at_rp_preserves_input_witness :
  (loss_at_rp cap_example false 1%positive rp_store).2 !! 1%positive =
  Some [Fin (Qc_of_Z 100); Fin (Qc_of_Z 4); Fin (Qc_of_Z 1);
        Fin 0%Qc; Fin (Qc_of_Z (-3))].
Proof. apply loss_at_rp_preserves_input. reflexivity. Defined.

(** ** The summary composer *)

(** C8 (the code departs from the claim).  [to_ep_summaries] never returns
    a summary: whatever the table, the return periods, [is_eef] and the
    behaviour of the year loss table's accessor, the call ends in an
    exception; when both per-year summaries could be built it is the
    AttributeError of the misspelt [renaem], as on the example. *)
Theorem to_ep_summaries_raises (accessor : Ylt → loc → M (list npfloat))
    (t : Yelt) (return_periods : loc) (is_eef : bool) (σ : heap) :
  (∃ e, (to_ep_summaries accessor t return_periods is_eef σ).1 = Raise e) ∧
  (to_ep_summaries ylt_loss_at_rp cap_example 1%positive true rp_store).1 =
    Raise (AttributeError "'Series' object has no attribute 'renaem'").
Proof.
  split; [|by vm_compute].
  unfold to_ep_summaries, mbind, M_bind.
  destruct (to_ep_summary accessor t return_periods false σ) as [[aep|e] σ1];
    [|by eauto].
  destruct (to_ep_summary accessor t return_periods true σ1) as [[oep|e] σ2];
    [|by eauto].
  simpl. eauto.
Qed.

(** ** Validation *)

Lemma index_names_check (names : list string) :
  length names = 3 ∧
  forallb (λ c, bool_decide (c ∈ names)) INDEX_NAMES = true ↔
  names ≡ₚ [COL_YEAR; COL_EVENT; COL_DAY].
Proof.
  split.
  - intros [Hlen Hall].
    destruct names as [|a [|b [|c [|]]]]; simplify_eq/=.
    rewrite !andb_true_iff, !bool_decide_eq_true in Hall.
    destruct Hall as (Hy & Hd & He & _).
    unfold COL_YEAR, COL_DAY, COL_EVENT in *.
    set_unfold. destruct Hy as [<-|[<-|[<-|[]]]];
      destruct Hd as [?|[?|[?|[]]]]; simplify_eq;
      destruct He as [?|[?|[?|[]]]]; simplify_eq; solve_Permutation.
  - intros Hp. split; [by rewrite Hp|].
    simpl. rewrite !andb_true_iff, !bool_decide_eq_true, !Hp.
    unfold COL_YEAR, COL_DAY, COL_EVENT. set_solver.
Qed.

Lemma integer_levels_check (levels : list IndexLevel) :
  forallb is_integer_dtype levels = true ↔
  Forall (λ l, ∃ v, l = IntLevel v) levels.
Proof.
  induction levels as [|l levels IH]; simpl.
  - split; [constructor|done].
  - rewrite andb_true_iff, Forall_cons, <-IH.
    destruct l; simpl; split; intros [Ha Hb]; (split; [|done]);
      first [done | by eexists | by destruct Ha].
Qed.

Lemma numeric_check (v : SeriesValues) :
  is_numeric_dtype v = true ↔ ∃ l, v = NumericValues l.
Proof.
  destruct v; simpl; split; try done; [by eexists | by intros [? ?]].
Qed.

Lemma foldl_min_spec x l :
  foldl Z.min x l ∈ x :: l ∧ ∀ y, y ∈ x :: l → (foldl Z.min x l ≤ y)%Z.
Proof.
  revert x. induction l as [|z l IH]; intros x; simpl.
  - split; [by left|]. intros y ->%list_elem_of_singleton. done.
  - destruct (IH (x `min` z)%Z) as [Hin Hlb]. split.
    + apply elem_of_cons in Hin as [Hin|Hin]; [|by do 2 right].
      rewrite Hin. destruct (Z.min_spec x z) as [[_ ->]|[_ ->]];
        [left|right; left]; done.
    + intros y Hy. pose proof (Hlb (x `min` z)%Z ltac:(by left)).
      apply elem_of_cons in Hy as [->|Hy]; [lia|].
      apply elem_of_cons in Hy as [->|Hy]; [lia|].
      apply Hlb. by right.
Qed.

Lemma foldl_max_spec x l :
  foldl Z.max x l ∈ x :: l ∧ ∀ y, y ∈ x :: l → (y ≤ foldl Z.max x l)%Z.
Proof.
  revert x. induction l as [|z l IH]; intros x; simpl.
  - split; [by left|]. intros y ->%list_elem_of_singleton. done.
  - destruct (IH (x `max` z)%Z) as [Hin Hub]. split.
    + apply elem_of_cons in Hin as [Hin|Hin]; [|by do 2 right].
      rewrite Hin. destruct (Z.max_spec x z) as [[_ ->]|[_ ->]];
        [right; left|left]; done.
    + intros y Hy. pose proof (Hub (x `max` z)%Z ltac:(by left)).
      apply elem_of_cons in Hy as [->|Hy]; [lia|].
      apply elem_of_cons in Hy as [->|Hy]; [lia|].
      apply Hub. by right.
Qed.

Lemma years_check (years : list Z) (n : Z) :
  lt_num (index_min years) 1 || gt_num (index_max years) n = false ↔
  ∀ y, y ∈ years → (1 ≤ y ≤ n)%Z.
Proof.
  destruct years as [|x l]; simpl.
  { split; [by intros _ y ?%elem_of_nil|done]. }
  destruct (foldl_min_spec x l) as [Hmin Hlb].
  destruct (foldl_max_spec x l) as [Hmax Hub].
  rewrite orb_false_iff, !bool_decide_eq_false. split.
  - intros [H1 H2] y Hy. specialize (Hlb y Hy). specialize (Hub y Hy). lia.
  - intros Hall. pose proof (Hall _ Hmin). pose proof (Hall _ Hmax). lia.
Qed.

Lemma validate_Ok obj : _validate obj = Ok () ↔ yelt_invariants obj.
Proof.
  unfold _validate, yelt_invariants, index_shape, integer_keys, numeric_loss,
    unique_keys, years_in_range.
  rewrite <-index_names_check, <-integer_levels_check.
  case_decide as Hlen.
  { split; [done|]. intros [[? _] _]. done. }
  destruct (forallb _ INDEX_NAMES) eqn:Hnames; simpl.
  2:{ split; [done|]. intros [[_ ?] _]. done. }
  destruct (forallb is_integer_dtype _) eqn:Hint; simpl.
  2:{ split; [done|]. intros (_ & ? & _). done. }
  destruct (is_numeric_dtype _) eqn:Hnum; simpl.
  2:{ split; [done|]. intros (_ & _ & [v Hv] & _). rewrite Hv in Hnum. done. }
  apply numeric_check in Hnum.
  destruct (attrs obj !! "n_yrs") as [n|] eqn:Hn.
  2:{ split; [done|]. intros (_ & _ & _ & (n & ? & _) & _). done. }
  case_bool_decide as Hu; simpl.
  2:{ split; [done|]. intros (_ & _ & _ & _ & ?). done. }
  destruct (lt_num _ _ || gt_num _ _) eqn:Hy.
  - split; [done|]. intros (_ & _ & _ & (n' & ? & Hyears) & _). simplify_eq.
    apply (proj2 (years_check _ _)) in Hyears. congruence.
  - pose proof (proj1 (years_check _ _) Hy) as Hyears. split; [|done]. intros _.
    repeat split; eauto.
Qed.

Lemma series_rows_lookup (obj : Series) (i : nat) (r : LossRecord) :
  series_rows obj !! i = Some r →
  get_level_values obj COL_YEAR !! i = Some (Year r) ∧
  get_level_values obj COL_EVENT !! i = Some (EventID r) ∧
  get_level_values obj COL_DAY !! i = Some (DayOfYear r) ∧
  i < series_len obj.
Proof.
  unfold series_rows, series_len.
  intros ([[y e] d] & l & -> & Hk & Hl)%lookup_zip_with_Some.
  apply lookup_zip_Some in Hk as [[Hy He]%lookup_zip_Some Hd]. simpl.
  destruct (values obj); [|by rewrite lookup_nil in Hl].
  by apply lookup_lt_Some in Hl.
Qed.

Lemma index_tuples_lookup (obj : Series) (i : nat) :
  i < series_len obj →
  index_tuples obj !! i = Some ((λ l, level_cells l !! i) <$> index_levels obj).
Proof.
  intros Hi. unfold index_tuples. rewrite list_lookup_fmap.
  by rewrite lookup_seq_lt.
Qed.

(** X21.  The table that the accessor wraps satisfies [valid_yelt], with
    the [n_yrs] of the series' [attrs]: the hypothesis of the statements on
    valid tables is what validation establishes. *)
Lemma wrapped_table_valid (obj : Series) (t : Yelt) :
  well_formed obj → YearEventLossTable obj = Ok t →
  valid_yelt t ∧ attrs obj !! "n_yrs" = Some (n_yrs t).
Proof.
  intros [Hlen Hwf] Hok. unfold YearEventLossTable in Hok.
  destruct (_validate obj) as [[]|] eqn:Hval; [|done]. injection Hok as <-.
  apply validate_Ok in Hval
    as (Hshape & Hint & [v Hv] & (n & Hn & Hyears) & Huniq).
  rewrite Hn. cbn [n_yrs default from_option id]. split; [|done].
  unfold valid_yelt. cbn [rows n_yrs]. split.
  - apply NoDup_alt. intros i j k Hi Hj.
    rewrite list_lookup_fmap in Hi, Hj.
    destruct (series_rows obj !! i) as [ri|] eqn:Ei; [|done].
    destruct (series_rows obj !! j) as [rj|] eqn:Ej; [|done].
    injection Hi as <-. injection Hj as Hy He Hd.
    apply series_rows_lookup in Ei as (Yi & Ei & Di & Hi).
    apply series_rows_lookup in Ej as (Yj & Ej & Dj & Hj).
    rewrite Hy, He, Hd in *.
    eapply (proj1 (NoDup_alt _) Huniq); [by apply index_tuples_lookup|].
    rewrite index_tuples_lookup by done. f_equal.
    assert (length (index_levels obj) = 3) as Hl3.
    { rewrite Hlen. unfold index_shape in Hshape. by rewrite Hshape. }
    unfold index_shape in Hshape. symmetry in Hshape.
    apply permutations_Permutation in Hshape.
    unfold integer_keys in Hint. unfold get_level_values in *.
    destruct (index_levels obj) as [|la [|lb [|lc [|]]]]; try done.
    apply Forall_cons in Hint as [[a ->] Hint].
    apply Forall_cons in Hint as [[b ->] Hint].
    apply Forall_cons in Hint as [[c ->] _].
    cbn [level_cells fmap list_fmap]. rewrite !list_lookup_fmap.
    unfold COL_YEAR, COL_EVENT, COL_DAY in *.
    cbv [permutations interleave foldr fmap list_fmap mbind list_bind app]
      in Hshape.
    set_unfold.
    destruct Hshape as [E|[E|[E|[E|[E|[E|[]]]]]]];
      rewrite E in Yi, Ei, Di, Yj, Ej, Dj; simpl in *; congruence.
  - intros r Hr. apply list_elem_of_lookup in Hr as [i Hi].
    apply series_rows_lookup in Hi as (Hy & _). apply Hyears.
    by eapply list_elem_of_lookup_2.
Qed.

(** C7.  Construction of the accessor accepts a series exactly when it
    satisfies all the invariants; a series that passes the checks standing
    before a violated one raises the error of that violation (non-integer
    key, non-numeric loss, missing 'n_yrs', duplicate key, year out of range)
    instead of being wrapped, and the errors, those of the index shape
    included, are pairwise different. *)
Theorem validation_accepts_exactly (obj : Series) :
  ((∃ t, YearEventLossTable obj = Ok t) ↔ yelt_invariants obj) ∧
  (index_shape obj → ¬ integer_keys obj →
   YearEventLossTable obj = Raise (err_index_dtype obj)) ∧
  (index_shape obj → integer_keys obj → ¬ numeric_loss obj →
   YearEventLossTable obj = Raise (err_loss_dtype obj)) ∧
  (index_shape obj → integer_keys obj → numeric_loss obj →
   attrs obj !! "n_yrs" = None →
   YearEventLossTable obj = Raise err_n_yrs) ∧
  (∀ n, index_shape obj → integer_keys obj → numeric_loss obj →
   attrs obj !! "n_yrs" = Some n → ¬ unique_keys obj →
   YearEventLossTable obj = Raise err_unique) ∧
  (∀ n, index_shape obj → integer_keys obj → numeric_loss obj →
   attrs obj !! "n_yrs" = Some n → unique_keys obj → ¬ years_in_range obj n →
   YearEventLossTable obj = Raise err_years) ∧
  (∀ o1 o2, NoDup [err_levels; err_names; err_index_dtype o1;
                   err_loss_dtype o2; err_n_yrs; err_unique; err_years]).
Proof.
  assert (∀ P : Prop, index_shape obj →
          (length (index_names obj) = 3 →
           forallb (λ c, bool_decide (c ∈ index_names obj)) INDEX_NAMES = true →
           P) → P) as Hshape.
  { intros P Hs HP. apply index_names_check in Hs as [? ?]. by apply HP. }
  unfold YearEventLossTable, _validate.
  split; [|split; [|split; [|split; [|split; [|split]]]]].
  - fold (_validate obj). rewrite <-validate_Ok.
    destruct (_validate obj) as [[]|e]; split; eauto; try done.
    intros [t Ht]. done.
  - intros Hs Hint. apply (Hshape _ Hs). intros Hlen ->.
    rewrite decide_False by (by intros []). simpl.
    unfold integer_keys in Hint. rewrite <-integer_levels_check in Hint.
    by apply not_true_is_false in Hint as ->.
  - intros Hs Hint Hnum. apply (Hshape _ Hs). intros Hlen ->.
    rewrite decide_False by (by intros []). simpl.
    apply integer_levels_check in Hint as ->. simpl.
    destruct (values obj) as [v|v] eqn:Hv; [destruct Hnum; by exists v|done].
  - intros Hs Hint [v Hv] Hn. apply (Hshape _ Hs). intros Hlen ->.
    rewrite decide_False by (by intros []). simpl.
    apply integer_levels_check in Hint as ->. by rewrite Hv, Hn.
  - intros n Hs Hint [v Hv] Hn Hu. apply (Hshape _ Hs). intros Hlen ->.
    rewrite decide_False by (by intros []). simpl.
    apply integer_levels_check in Hint as ->. rewrite Hv, Hn. simpl.
    by rewrite bool_decide_eq_false_2.
  - intros n Hs Hint [v Hv] Hn Hu Hy. apply (Hshape _ Hs). intros Hlen ->.
    rewrite decide_False by (by intros []). simpl.
    apply integer_levels_check in Hint as ->. rewrite Hv, Hn. simpl.
    rewrite bool_decide_eq_true_2 by done. simpl.
    destruct (lt_num _ _ || gt_num _ _) eqn:E; [done|].
    destruct Hy. exact (proj1 (years_check _ _) E).
  - intros o1 o2. unfold err_levels, err_names, err_index_dtype,
      err_loss_dtype, err_n_yrs, err_unique, err_years.
    repeat (apply NoDup_cons; split;
            [rewrite ?elem_of_cons, elem_of_nil; simpl; intros H;
             repeat (destruct H as [H|H]; [discriminate H|]); exact H|]).
    apply NoDup_nil_2.
Qed.

Lemma validation_accepts_exactly_witness :
  (∃ t, YearEventLossTable good_series = Ok t) ∧
  YearEventLossTable duplicate_series = Raise err_unique.
Proof.
  split.
  - apply (proj1 (validation_accepts_exactly good_series)).
    split; [by unfold index_shape|]. split; [repeat constructor; eauto|].
    split; [by eexists|]. split.
    + exists 10%Z. split; [done|]. intros y Hy.
      change (y ∈ [1; 1; 2]%Z) in Hy. set_unfold. lia.
    + by apply (bool_decide_unpack _); vm_compute.
  - destruct (validation_accepts_exactly duplicate_series)
      as (_ & _ & _ & _ & H & _).
    apply (H 10%Z);
      [by unfold index_shape | repeat constructor; eauto | by eexists | done |].
    by apply (bool_decide_unpack _); vm_compute.
Defined.

(** ** Ranks and exceedance frequencies *)

#[global] Instance descending_trans : Transitive descending.
Proof. intros a b c. unfold descending. intros. qc_lra. Qed.

#[global] Instance descending_total : Total descending.
Proof.
  intros a b. unfold descending.
  destruct (Qclt_le_dec a b); [right|left]; qc_lra.
Qed.

Lemma rank_of_sorted (s : list Qc) (x : Qc) :
  StronglySorted descending s → x ∈ s →
  match list_find (λ y, y = x) s with
  | Some (i, _) => S i
  | None => 0
  end = S (length (filter (λ v, (x < v)%Qc) s)).
Proof.
  induction 1 as [|a s Hs IH Ha]; intros Hx; [by apply elem_of_nil in Hx|].
  cbn [list_find]. rewrite filter_cons. case_decide as Hax.
  - subst a. rewrite decide_False by (intros ?; qc_lra).
    rewrite filter_none; [done|]. intros v Hv.
    rewrite Forall_forall in Ha. specialize (Ha v Hv). unfold descending in Ha.
    intros ?. qc_lra.
  - apply elem_of_cons in Hx as [->|Hx]; [done|].
    rewrite Forall_forall in Ha. pose proof (Ha x Hx) as Hle.
    unfold descending in Hle.
    rewrite decide_True by (clear IH; qc_lra).
    specialize (IH Hx). destruct (list_find _ s) as [[i y]|]; simpl in *; lia.
Qed.

(** The rank is one more than the number of strictly larger values. *)
Lemma rank_desc_min_count (vals : list Qc) (x : Qc) :
  x ∈ vals →
  rank_desc_min vals x = S (length (filter (λ v, (x < v)%Qc) vals)).
Proof.
  intros Hx. unfold rank_desc_min.
  rewrite rank_of_sorted.
  - by rewrite sort_stable_Permutation.
  - apply sort_stable_sorted; apply _.
  - by apply elem_of_sort_stable.
Qed.

Lemma length_filter_strict {A : Type} (P Q : A → Prop)
    `{!∀ x, Decision (P x)} `{!∀ x, Decision (Q x)} (l : list A) (w : A) :
  (∀ v, P v → Q v) → w ∈ l → Q w → ¬ P w →
  length (filter P l) < length (filter Q l).
Proof.
  intros HPQ Hw HQ HP.
  assert (∀ l', length (filter P l') ≤ length (filter Q l')) as Hle.
  { induction l' as [|a l' IH]; [done|]. rewrite !filter_cons.
    destruct (decide (P a)) as [Hp|Hp], (decide (Q a)) as [Hq|Hq];
      simpl; try lia. destruct Hq. by apply HPQ. }
  induction l as [|a l IH]; [by apply elem_of_nil in Hw|].
  rewrite !filter_cons. apply elem_of_cons in Hw as [<-|Hw].
  - rewrite decide_False, decide_True by done. simpl. specialize (Hle l). lia.
  - specialize (IH Hw).
    destruct (decide (P a)) as [Hp|Hp], (decide (Q a)) as [Hq|Hq];
      simpl; try lia. destruct Hq. by apply HPQ.
Qed.

Lemma rank_desc_min_strict (vals : list Qc) (a b : Qc) :
  a ∈ vals → b ∈ vals → (a < b)%Qc →
  rank_desc_min vals b < rank_desc_min vals a.
Proof.
  intros Ha Hb Hab. rewrite !rank_desc_min_count by done.
  apply ->Nat.succ_lt_mono.
  apply (length_filter_strict _ _ vals b); [|done|done|].
  - intros v ?. qc_lra.
  - intros ?. qc_lra.
Qed.

Lemma valid_yelt_n_yrs t r : valid_yelt t → r ∈ rows t → (0 < n_yrs t)%Z.
Proof. intros [_ Hy] Hr. specialize (Hy r Hr). lia. Qed.

Lemma exfreq_of_strict (t : Yelt) (r1 r2 : LossRecord) :
  valid_yelt t → r1 ∈ rows t → r2 ∈ rows t → (Loss r1 < Loss r2)%Qc →
  (exfreq_of t (Loss r2) < exfreq_of t (Loss r1))%Qc.
Proof.
  intros Hv H1 H2 Hlt. unfold exfreq_of, Qcdiv.
  apply Qcmult_lt_compat_r.
  - apply Qcinv_pos. rewrite <-Z2Qc_inj_0. apply (proj1 (Z2Qc_inj_lt _ _)).
    by eapply valid_yelt_n_yrs.
  - unfold Qc_of_nat. apply (proj1 (Z2Qc_inj_lt _ _)), inj_lt.
    apply rank_desc_min_strict; [by apply list_elem_of_fmap_2.. | done].
Qed.

(** ** The exceedance-frequency curve *)

Ltac ef_order_solve :=
  first
    [ left; qc_lra
    | right; split; [qc_lra|];
      first
        [ left; qc_lra
        | right; split; [qc_lra|];
          first [ left; lia | right; split; lia ] ] ].

#[global] Instance ef_order_trans : Transitive ef_order.
Proof.
  intros [[ya ea da la] fa] [[yb eb db lb] fb] [[yc ec dc lc] fc].
  unfold ef_order. cbn [ef_record ExFreq Loss Year DayOfYear].
  intros [H1|[E1 [H1|[E1' [H1|[E1'' H1]]]]]]
         [H2|[E2 [H2|[E2' [H2|[E2'' H2]]]]]]; ef_order_solve.
Qed.

#[global] Instance ef_order_total : Total ef_order.
Proof.
  intros [[ya ea da la] fa] [[yb eb db lb] fb].
  unfold ef_order. cbn [ef_record ExFreq Loss Year DayOfYear].
  destruct (Qc_dec la lb) as [[?|?]|?]; [right; ef_order_solve|left; ef_order_solve|].
  destruct (Qc_dec fa fb) as [[?|?]|?]; [left; ef_order_solve|right; ef_order_solve|].
  destruct (Z.lt_trichotomy ya yb) as [?|[?|?]];
    [right; ef_order_solve| |left; ef_order_solve].
  destruct (Z.le_ge_cases da db); [right|left]; ef_order_solve.
Qed.

#[global] Instance by_values_trans {L V : Type} (R : relation V)
  `{!Transitive R} : Transitive (by_values (L:=L) R).
Proof. intros a b c. unfold by_values. apply transitivity. Qed.

#[global] Instance by_values_total {L V : Type} (R : relation V)
  `{!Total R} : Total (by_values (L:=L) R).
Proof. intros a b. unfold by_values. apply total, _. Qed.

Lemma StronglySorted_sublist {A : Type} (R : relation A) (l1 l2 : list A) :
  l1 `sublist_of` l2 → StronglySorted R l2 → StronglySorted R l1.
Proof.
  induction 1 as [|x l1 l2 Hs IH|x l1 l2 Hs IH]; intros Hl.
  - constructor.
  - apply StronglySorted_inv in Hl as [Hl Hx]. constructor; [by apply IH|].
    rewrite Forall_forall in *. intros y Hy. apply Hx.
    by eapply elem_of_sublist.
  - apply StronglySorted_inv in Hl as [Hl _]. by apply IH.
Qed.

Lemma StronglySorted_impl_elem {A : Type} (R R' : relation A) (l : list A) :
  StronglySorted R l →
  (∀ x y, x ∈ l → y ∈ l → R x y → R' x y) →
  StronglySorted R' l.
Proof.
  induction 1 as [|a l Hl IH Ha]; intros Himp; constructor.
  - apply IH. intros x y Hx Hy. apply Himp; by right.
  - rewrite Forall_forall in *. intros y Hy.
    apply Himp; [by left | by right | by apply Ha].
Qed.

Lemma StronglySorted_NoDup_strict {A : Type} (R R' : relation A) (l : list A) :
  StronglySorted R l → NoDup l →
  (∀ x y, x ∈ l → y ∈ l → x ≠ y → R x y → R' x y) →
  StronglySorted R' l.
Proof.
  induction 1 as [|a l Hl IH Ha]; intros Hnd Himp; constructor.
  - apply NoDup_cons in Hnd as [_ Hnd]. apply IH; [done|].
    intros x y Hx Hy. apply Himp; by right.
  - apply NoDup_cons in Hnd as [Hal _].
    rewrite Forall_forall in *. intros y Hy.
    apply Himp; [by left | by right | by intros -> | by apply Ha].
Qed.

Section drop_duplicates_facts.
Context {L V : Type} `{!EqDecision V}.
Implicit Types (seen : list V) (frame : list (L * V)).

Lemma drop_duplicates_sublist seen frame :
  drop_duplicates seen frame `sublist_of` frame.
Proof.
  revert seen. induction frame as [|[i v] frame IH]; intros seen; simpl.
  - done.
  - case_decide; [by apply sublist_cons | by apply sublist_skip].
Qed.

Lemma elem_of_drop_duplicates seen frame v :
  v ∈ (drop_duplicates seen frame).*2 ↔ v ∈ frame.*2 ∧ v ∉ seen.
Proof.
  revert seen. induction frame as [|[i w] frame IH]; intros seen; simpl.
  - rewrite elem_of_nil. tauto.
  - case_decide as Hw.
    + rewrite IH, elem_of_cons. split; [tauto|].
      intros [[->|?] ?]; tauto.
    + rewrite fmap_cons, !elem_of_cons, IH, not_elem_of_cons. simpl.
      destruct (decide (v = w)) as [->|]; tauto.
Qed.

Lemma NoDup_drop_duplicates seen frame :
  NoDup (drop_duplicates seen frame).*2.
Proof.
  revert seen. induction frame as [|[i w] frame IH]; intros seen; simpl.
  - constructor.
  - case_decide; [apply IH|]. rewrite fmap_cons. constructor; [|apply IH].
    rewrite elem_of_drop_duplicates, not_elem_of_cons. tauto.
Qed.
End drop_duplicates_facts.

Lemma snd_imap_pair {A : Type} (l : list A) : (imap (λ i r, (i, r)) l).*2 = l.
Proof.
  rewrite fmap_imap. unfold compose. simpl.
  rewrite (imap_const (λ r, r)). apply list_fmap_id.
Qed.

Lemma fst_reset_index {L V : Type} (frame : list (L * V)) :
  (reset_index frame).*1 = seq 0 (length frame).
Proof.
  unfold reset_index. rewrite fmap_imap. unfold compose. simpl.
  rewrite (imap_seq_0 frame (λ j, j)). apply list_fmap_id.
Qed.

Lemma snd_reset_index {L V : Type} (frame : list (L * V)) :
  (reset_index frame).*2 = frame.*2.
Proof.
  unfold reset_index. rewrite fmap_imap. unfold compose. simpl.
  apply (imap_const snd).
Qed.

Lemma length_reset_index {L V : Type} (frame : list (L * V)) :
  length (reset_index frame) = length frame.
Proof. apply length_imap. Qed.

Lemma to_ef_curve_eq (t : Yelt) (keep_index : bool) :
  to_ef_curve t keep_index =
  if keep_index then KeyedCurve (reset_index (sorted_frame t))
  else PlainCurve
         (reset_index
            (drop_duplicates []
               (prod_map id (λ r, (Loss (ef_record r), ExFreq r))
                <$> sorted_frame t))).
Proof.
  unfold to_ef_curve, sorted_frame, ef_rows, exfreq.
  by rewrite zip_with_fmap_r, zip_with_diag.
Qed.

Lemma sorted_frame_values (t : Yelt) : (sorted_frame t).*2 ≡ₚ ef_rows t.
Proof.
  unfold sorted_frame. by rewrite sort_stable_Permutation, snd_imap_pair.
Qed.

Lemma sorted_frame_sorted (t : Yelt) :
  StronglySorted ef_order (sorted_frame t).*2.
Proof.
  eapply StronglySorted_fmap; [|apply sort_stable_sorted; apply _].
  by intros x y.
Qed.

Lemma elem_of_ef_rows (t : Yelt) (a : EfRow) :
  a ∈ ef_rows t ↔
  ef_record a ∈ rows t ∧ ExFreq a = exfreq_of t (Loss (ef_record a)).
Proof.
  unfold ef_rows. rewrite list_elem_of_fmap. split.
  - by intros (r & -> & Hr).
  - intros [Hr He]. exists (ef_record a). split; [|done].
    destruct a; simpl in *; by subst.
Qed.

Lemma zip_fmap_same {A B C : Type} (f : A → B) (g : A → C) (l : list A) :
  zip (f <$> l) (g <$> l) = (λ x, (f x, g x)) <$> l.
Proof.
  induction l as [|x l IH]; [done|]. rewrite !fmap_cons. cbn [zip zip_with].
  by f_equal.
Qed.

Lemma curve_points_keyed (t : Yelt) :
  curve_points (to_ef_curve t true) = point_of <$> (sorted_frame t).*2.
Proof.
  rewrite to_ef_curve_eq. unfold curve_points, curve_ExFreq, curve_Loss.
  rewrite zip_fmap_same, <-snd_reset_index, <-list_fmap_compose. done.
Qed.

Lemma curve_points_plain (t : Yelt) :
  curve_points (to_ef_curve t false) = (λ v, (v.2, v.1)) <$> plain_values t.
Proof.
  rewrite to_ef_curve_eq. unfold curve_points, curve_ExFreq, curve_Loss.
  unfold plain_values.
  rewrite zip_fmap_same, <-snd_reset_index, <-list_fmap_compose. done.
Qed.

Lemma curve_ExFreq_points (t : Yelt) (keep_index : bool) :
  curve_ExFreq (to_ef_curve t keep_index) =
  (curve_points (to_ef_curve t keep_index)).*1.
Proof.
  unfold curve_points. rewrite fst_zip; [done|].
  destruct (to_ef_curve t keep_index); simpl; by rewrite !length_fmap.
Qed.

Lemma curve_Loss_points (t : Yelt) (keep_index : bool) :
  curve_Loss (to_ef_curve t keep_index) =
  (curve_points (to_ef_curve t keep_index)).*2.
Proof.
  unfold curve_points. rewrite snd_zip; [done|].
  destruct (to_ef_curve t keep_index); simpl; by rewrite !length_fmap.
Qed.

Lemma plain_values_sublist (t : Yelt) :
  plain_values t `sublist_of`
  (λ r, (Loss (ef_record r), ExFreq r)) <$> (sorted_frame t).*2.
Proof.
  unfold plain_values. rewrite <-list_fmap_compose.
  etrans; [apply fmap_sublist, drop_duplicates_sublist|].
  by rewrite <-list_fmap_compose.
Qed.

Lemma elem_of_plain_values (t : Yelt) (v : Qc * Qc) :
  v ∈ plain_values t ↔ ∃ r, r ∈ rows t ∧ v = (Loss r, exfreq_of t (Loss r)).
Proof.
  unfold plain_values. rewrite elem_of_drop_duplicates, <-list_fmap_compose.
  rewrite list_elem_of_fmap. split.
  - intros [(a & -> & Ha) _].
    apply (list_elem_of_fmap_2 snd) in Ha. rewrite sorted_frame_values in Ha.
    apply elem_of_ef_rows in Ha as [Hr He]. simpl. rewrite He. eauto.
  - intros (r & Hr & ->). split; [|apply not_elem_of_nil].
    assert ({| ef_record := r; ExFreq := exfreq_of t (Loss r) |}
            ∈ (sorted_frame t).*2) as Ha.
    { rewrite sorted_frame_values. by apply elem_of_ef_rows. }
    apply list_elem_of_fmap in Ha as (a & Ha & Hin).
    exists a. split; [|done]. simpl. by rewrite <-Ha.
Qed.

Lemma elem_of_curve_points (t : Yelt) (keep_index : bool) (p : Qc * Qc) :
  p ∈ curve_points (to_ef_curve t keep_index) ↔
  ∃ r, r ∈ rows t ∧ p = (exfreq_of t (Loss r), Loss r).
Proof.
  destruct keep_index.
  - rewrite curve_points_keyed, list_elem_of_fmap. split.
    + intros (a & -> & Ha). rewrite sorted_frame_values in Ha.
      apply elem_of_ef_rows in Ha as [Hr He]. exists (ef_record a).
      split; [done|]. unfold point_of. by rewrite He.
    + intros (r & Hr & ->).
      exists {| ef_record := r; ExFreq := exfreq_of t (Loss r) |}.
      split; [done|]. rewrite sorted_frame_values. by apply elem_of_ef_rows.
  - rewrite curve_points_plain, list_elem_of_fmap. split.
    + intros (v & -> & Hv). apply elem_of_plain_values in Hv as (r & Hr & ->).
      by exists r.
    + intros (r & Hr & ->). exists (Loss r, exfreq_of t (Loss r)).
      split; [done|]. apply elem_of_plain_values. by exists r.
Qed.

Lemma ef_order_point_order (t : Yelt) (a b : EfRow) :
  valid_yelt t → a ∈ ef_rows t → b ∈ ef_rows t →
  ef_order a b → point_order (point_of a) (point_of b).
Proof.
  intros Hv [Ha Ea]%elem_of_ef_rows [Hb Eb]%elem_of_ef_rows Hab.
  unfold point_order, point_of. cbn [fst snd]. rewrite Ea, Eb.
  destruct Hab as [Hlt|[Heq _]].
  - pose proof (exfreq_of_strict t _ _ Hv Hb Ha Hlt).
    split; [qc_lra|]. split; [qc_lra|done].
  - rewrite Heq. split; [apply Qcle_refl|]. split; [apply Qcle_refl|].
    intros ?. qc_lra.
Qed.

Lemma keyed_points_sorted (t : Yelt) :
  valid_yelt t → StronglySorted point_order (point_of <$> (sorted_frame t).*2).
Proof.
  intros Hv.
  apply (StronglySorted_fmap _ (λ a b, point_order (point_of a) (point_of b)));
    [done|].
  eapply StronglySorted_impl_elem; [apply sorted_frame_sorted|].
  intros a b Ha Hb. rewrite sorted_frame_values in Ha, Hb.
  by apply (ef_order_point_order t).
Qed.

Lemma curve_points_sorted (t : Yelt) (keep_index : bool) :
  valid_yelt t →
  StronglySorted point_order (curve_points (to_ef_curve t keep_index)).
Proof.
  intros Hv. destruct keep_index.
  - rewrite curve_points_keyed. by apply keyed_points_sorted.
  - rewrite curve_points_plain.
    eapply StronglySorted_sublist; [|by apply keyed_points_sorted].
    etrans; [apply fmap_sublist, plain_values_sublist|].
    by rewrite <-list_fmap_compose.
Qed.

Lemma plain_points_strict (t : Yelt) :
  valid_yelt t →
  StronglySorted (λ p q, (p.1 < q.1)%Qc ∧ (q.2 < p.2)%Qc)
    (curve_points (to_ef_curve t false)).
Proof.
  intros Hv.
  eapply StronglySorted_NoDup_strict; [by apply curve_points_sorted| |].
  - rewrite curve_points_plain. apply NoDup_fmap_2; [|apply NoDup_drop_duplicates].
    intros [a b] [c d]; simpl. congruence.
  - intros p q Hp Hq Hne (Hl & Hf & Hs).
    apply elem_of_curve_points in Hp as (rp & _ & ->).
    apply elem_of_curve_points in Hq as (rq & _ & ->). simpl in *.
    assert (Loss rq < Loss rp)%Qc as Hlt.
    { destruct (Qc_dec (Loss rq) (Loss rp)) as [[?|?]|E]; [done|qc_lra|].
      destruct Hne. by rewrite E. }
    auto.
Qed.

Lemma plain_values_strict (t : Yelt) :
  StronglySorted (λ a b : Qc * Qc, (b.1 < a.1)%Qc) (plain_values t).
Proof.
  eapply (StronglySorted_NoDup_strict (λ a b : Qc * Qc, (b.1 ≤ a.1)%Qc)).
  - eapply StronglySorted_sublist; [apply plain_values_sublist|].
    eapply StronglySorted_fmap; [|apply sorted_frame_sorted].
    intros a b [Hlt|[Heq _]]; simpl; qc_lra.
  - apply NoDup_drop_duplicates.
  - intros x y Hx Hy Hne Hle.
    apply elem_of_plain_values in Hx as (rx & _ & ->).
    apply elem_of_plain_values in Hy as (ry & _ & ->). simpl in *.
    destruct (Qc_dec (Loss ry) (Loss rx)) as [[?|?]|E]; [done|qc_lra|].
    destruct Hne. by rewrite E.
Qed.

(** C5.  [exfreq] gives each record the descending rank of its loss, ties
    taking the smallest rank (one more than the number of strictly larger
    losses, so 1 for the largest), divided by [n_yrs].  With [keep_index]
    the curve holds every combined row, ordered by loss descending, then
    ExFreq ascending, then year descending, then day of year descending.
    Without it the key columns are gone and the rows are those of the
    ordered frame with only the first row of each distinct loss kept, losses
    strictly descending.  Either way the index 'Order' counts 0, 1, 2, ... *)
Theorem to_ef_curve_spec (t : Yelt) :
  exfreq t =
    (λ r, (Qc_of_nat (S (length (filter (λ v, (Loss r < v)%Qc) (Loss <$> rows t))))
           / Qc_of_Z (n_yrs t))%Qc) <$> rows t ∧
  ∃ keyed plain,
    to_ef_curve t true = KeyedCurve keyed ∧
    to_ef_curve t false = PlainCurve plain ∧
    curve_Order (to_ef_curve t true) = seq 0 (length keyed) ∧
    curve_Order (to_ef_curve t false) = seq 0 (length plain) ∧
    keyed.*2 ≡ₚ zip_with Build_EfRow (rows t) (exfreq t) ∧
    StronglySorted ef_order keyed.*2 ∧
    plain.*2 `sublist_of` ((λ r, (Loss (ef_record r), ExFreq r)) <$> keyed.*2) ∧
    (∀ v, v ∈ (λ r, (Loss (ef_record r), ExFreq r)) <$> keyed.*2 → v ∈ plain.*2) ∧
    StronglySorted (λ a b : Qc * Qc, (b.1 < a.1)%Qc) plain.*2.
Proof.
  split.
  { unfold exfreq. apply list_fmap_ext. intros i r Hr.
    unfold exfreq_of. rewrite rank_desc_min_count; [done|].
    apply list_elem_of_fmap_2. by eapply list_elem_of_lookup_2. }
  rewrite !to_ef_curve_eq. do 2 eexists.
  split; [done|]. split; [done|]. cbn [curve_Order].
  rewrite !fst_reset_index, !snd_reset_index, !length_reset_index.
  fold (plain_values t).
  split; [done|]. split; [done|].
  split.
  { rewrite sorted_frame_values. unfold ef_rows, exfreq.
    by rewrite zip_with_fmap_r, zip_with_diag. }
  split; [apply sorted_frame_sorted|].
  split; [apply plain_values_sublist|].
  split; [|apply plain_values_strict].
  intros v (a & -> & Ha)%list_elem_of_fmap. rewrite sorted_frame_values in Ha.
  apply elem_of_ef_rows in Ha as [Hr He]. apply elem_of_plain_values.
  exists (ef_record a). by rewrite He.
Qed.

(** The two curves of a table in which two events share a loss: the tied
    rows share the rank 2 and stand with the later year first; the plain
    curve keeps one row for them. *)
Example to_ef_curve_example :
  to_ef_curve tie_example true =
    KeyedCurve
      [(0, {| ef_record := record 2 3 5 200;
              ExFreq := (Qc_of_Z 1 / Qc_of_Z 10)%Qc |});
       (1, {| ef_record := record 2 4 5 100;
              ExFreq := (Qc_of_Z 2 / Qc_of_Z 10)%Qc |});
       (2, {| ef_record := record 1 1 10 100;
              ExFreq := (Qc_of_Z 2 / Qc_of_Z 10)%Qc |});
       (3, {| ef_record := record 1 2 20 50;
              ExFreq := (Qc_of_Z 4 / Qc_of_Z 10)%Qc |})] ∧
  to_ef_curve tie_example false =
    PlainCurve
      [(0, (Qc_of_Z 200, (Qc_of_Z 1 / Qc_of_Z 10)%Qc));
       (1, (Qc_of_Z 100, (Qc_of_Z 2 / Qc_of_Z 10)%Qc));
       (2, (Qc_of_Z 50, (Qc_of_Z 4 / Qc_of_Z 10)%Qc))].
Proof. split; by apply (bool_decide_unpack _); vm_compute. Qed.

(** C6.  On a valid table the ExFreq column of the curve never decreases
    along the Order position, and rises wherever the loss changes; after
    deduplication it is strictly increasing.  These columns are the sample
    points that [loss_at_rp] hands to the interpolation. *)
Theorem ef_curve_frequencies_increase (t : Yelt) :
  valid_yelt t →
  (∀ keep_index,
     StronglySorted Qcle (curve_ExFreq (to_ef_curve t keep_index)) ∧
     StronglySorted (λ p q, p.2 ≠ q.2 → (p.1 < q.1)%Qc)
       (curve_points (to_ef_curve t keep_index))) ∧
  StronglySorted Qclt (curve_ExFreq (to_ef_curve t false)) ∧
  (∀ keep_index return_periods (σ : heap) max_loss rest,
     curve_Loss (to_ef_curve t keep_index) = max_loss :: rest →
     ∃ x, (loss_at_rp t keep_index return_periods σ).1 =
          np_interp x (curve_ExFreq (to_ef_curve t keep_index))
            (curve_Loss (to_ef_curve t keep_index)) (Fin max_loss) (Fin 0)).
Proof.
  intros Hv. split; [|split].
  - intros k. pose proof (curve_points_sorted t k Hv) as Hs. split.
    + rewrite curve_ExFreq_points.
      eapply StronglySorted_fmap; [|exact Hs]. by intros p q (_ & ? & _).
    + eapply StronglySorted_impl_elem; [exact Hs|].
      intros p q _ _ (Hl & _ & Hf) Hne. apply Hf.
      destruct (Qc_dec q.2 p.2) as [[?|?]|E]; [done|qc_lra|by destruct Hne].
  - rewrite curve_ExFreq_points.
    eapply StronglySorted_fmap; [|by apply plain_points_strict].
    by intros p q [? _].
  - intros k rp σ m rest Hc. eexists.
    erewrite loss_at_rp_run by done. done.
Qed.

Lemma ef_curve_frequencies_increase_witness :
  (∀ keep_index,
     StronglySorted Qcle (curve_ExFreq (to_ef_curve ylt_example keep_index)) ∧
     StronglySorted (λ p q, p.2 ≠ q.2 → (p.1 < q.1)%Qc)
       (curve_points (to_ef_curve ylt_example keep_index))) ∧
  StronglySorted Qclt (curve_ExFreq (to_ef_curve ylt_example false)) ∧
  (∀ keep_index return_periods (σ : heap) max_loss rest,
     curve_Loss (to_ef_curve ylt_example keep_index) = max_loss :: rest →
     ∃ x, (loss_at_rp ylt_example keep_index return_periods σ).1 =
          np_interp x (curve_ExFreq (to_ef_curve ylt_example keep_index))
            (curve_Loss (to_ef_curve ylt_example keep_index))
            (Fin max_loss) (Fin 0)).
Proof.
  apply (ef_curve_frequencies_increase ylt_example).
  by apply (bool_decide_unpack _); vm_compute.
Defined.

(** ** Interpolation at return periods *)

Lemma last_cons_default {A : Type} (a d : A) (l : list A) :
  List.last (a :: l) d = List.last l a.
Proof.
  revert a d. induction l as [|b l IH]; intros a d; [done|].
  change (List.last (a :: b :: l) d) with (List.last (b :: l) d).
  by rewrite !IH.
Qed.

Lemma last_point_max (p0 : Qc * Qc) (ps : list (Qc * Qc)) :
  StronglySorted point_order (p0 :: ps) →
  List.last ps p0 ∈ p0 :: ps ∧
  ∀ p, p ∈ p0 :: ps → (p.1 ≤ (List.last ps p0).1)%Qc.
Proof.
  revert p0. induction ps as [|p1 ps IH]; intros p0 Hs.
  - split; [by left|]. intros p ->%list_elem_of_singleton. apply Qcle_refl.
  - apply StronglySorted_inv in Hs as [Hs H0]. rewrite last_cons_default.
    destruct (IH p1 Hs) as [Hin Hmax]. split; [by right|].
    intros p [->|Hp]%elem_of_cons; [|by apply Hmax].
    rewrite Forall_forall in H0. destruct (H0 _ Hin) as (_ & ? & _). done.
Qed.

Lemma first_point_min (p0 : Qc * Qc) (ps : list (Qc * Qc)) :
  StronglySorted point_order (p0 :: ps) →
  ∀ p, p ∈ p0 :: ps → (p0.1 ≤ p.1)%Qc ∧ (p.2 ≤ p0.2)%Qc.
Proof.
  intros [_ H0]%StronglySorted_inv p [->|Hp]%elem_of_cons.
  - split; apply Qcle_refl.
  - rewrite Forall_forall in H0. destruct (H0 _ Hp) as (? & ? & _). done.
Qed.

Lemma interp_from_spec (q : Qc) (p0 : Qc * Qc) (ps : list (Qc * Qc)) :
  StronglySorted point_order (p0 :: ps) →
  (p0.1 ≤ q)%Qc → (q ≤ (List.last ps p0).1)%Qc →
  (∃ p, p ∈ p0 :: ps ∧ p.1 = q ∧ interp_from q p0 ps = p.2) ∨
  (∃ pa pb, pa ∈ p0 :: ps ∧ pb ∈ p0 :: ps ∧
     (pa.1 < q)%Qc ∧ (q < pb.1)%Qc ∧
     (∀ p, p ∈ p0 :: ps → (p.1 ≤ pa.1)%Qc ∨ (pb.1 ≤ p.1)%Qc) ∧
     interp_from q p0 ps =
       ((pb.2 - pa.2) / (pb.1 - pa.1) * (q - pa.1) + pa.2)%Qc).
Proof.
  revert p0. induction ps as [|p1 ps IH]; intros p0 Hs Hlo Hhi.
  - left. exists p0. simpl in *. split; [by left|]. split; [qc_lra|done].
  - pose proof (first_point_min _ _ Hs) as Hmin.
    apply StronglySorted_inv in Hs as [Hs H0].
    rewrite last_cons_default in Hhi. cbn [interp_from].
    case_decide as Hq1.
    + case_decide as Hq0.
      * left. exists p0. split; [by left|]. done.
      * right. exists p0, p1. split; [by left|]. split; [by right; left|].
        split; [qc_lra|]. split; [done|]. split; [|done].
        intros p [->|Hp]%elem_of_cons; [left; apply Qcle_refl|right].
        by apply (first_point_min _ _ Hs).
    + destruct (IH p1 Hs) as [(p & Hp & Hpq & Hv)|(pa & pb & Ha & Hb & Hlt & Hgt & Hadj & Hv)];
        [qc_lra|done| |].
      * left. exists p. split; [by right|]. done.
      * right. exists pa, pb. split; [by right|]. split; [by right|].
        split; [done|]. split; [done|]. split; [|done].
        intros p [->|Hp]%elem_of_cons; [|by apply Hadj].
        left. apply Hmin. by right.
Qed.

Lemma interp1_Fin (p0 : Qc * Qc) (ps : list (Qc * Qc)) (left right : npfloat)
    (q : Qc) :
  interp1 p0 ps left right (Fin q) =
  if decide ((List.last ps p0).1 < q)%Qc then right
  else if decide (q < p0.1)%Qc then left
  else Fin (interp_from q p0 ps).
Proof.
  destruct ps as [|p1 ps]; [|done]. cbn [interp1 List.last interp_from].
  repeat case_decide; try done; exfalso; qc_lra.
Qed.

Lemma interp1_NaN (p0 : Qc * Qc) (ps : list (Qc * Qc)) (left right : npfloat) :
  interp1 p0 ps left right NaN =
  match ps with [] => Fin p0.2 | _ :: _ => NaN end.
Proof. by destruct ps. Qed.

Lemma interp1_PInf (p0 : Qc * Qc) (ps : list (Qc * Qc)) (left right : npfloat) :
  interp1 p0 ps left right PInf = right.
Proof. by destruct ps. Qed.

(** The curve has one row exactly on the tables of [single_point]. *)
Lemma curve_single_point (t : Yelt) (keep_index : bool) (p0 : Qc * Qc)
    (ps : list (Qc * Qc)) :
  curve_points (to_ef_curve t keep_index) = p0 :: ps →
  ps = [] ↔ single_point t keep_index.
Proof.
  intros Ep. pose proof (elem_of_curve_points t keep_index) as Hel.
  destruct keep_index; cbn [single_point].
  - assert (length (p0 :: ps) = length (rows t)) as Hlen.
    { rewrite <-Ep, curve_points_keyed, length_fmap, sorted_frame_values.
      unfold ef_rows. by rewrite length_fmap. }
    cbn [length] in Hlen. rewrite <-Hlen.
    destruct ps; split; intros H; (done || simpl in H; lia).
  - assert (NoDup (p0 :: ps)) as Hnd.
    { rewrite <-Ep, curve_points_plain.
      apply NoDup_fmap_2; [|apply NoDup_drop_duplicates].
      intros [a b] [c d]; simpl. congruence. }
    rewrite Ep in Hel. split.
    + intros -> r1 r2 H1 H2.
      assert ((exfreq_of t (Loss r1), Loss r1) ∈ [p0]) as E1
        by (apply Hel; eauto).
      assert ((exfreq_of t (Loss r2), Loss r2) ∈ [p0]) as E2
        by (apply Hel; eauto).
      apply list_elem_of_singleton in E1, E2. congruence.
    + intros Hall. destruct ps as [|p1 ps]; [done|]. exfalso.
      destruct (proj1 (Hel p0) ltac:(by left)) as (r0 & H0 & E0).
      destruct (proj1 (Hel p1) ltac:(by right; left)) as (r1 & H1 & E1).
      apply NoDup_cons in Hnd as [Hnin _]. apply Hnin.
      rewrite E0, E1, (Hall r0 r1 H0 H1). by left.
Qed.





(** The values of the example: return periods 100, 4, 1, 0 and -3 on
    [cap_example], whose curve is (100, 0.1), (80, 0.2), (60, 0.3). *)
Example loss_at_rp_example :
  (loss_at_rp cap_example false 1%positive rp_store).1 =
  Ok [Fin (Qc_of_Z 100); Fin (Qc_of_Z 70); Fin 0%Qc; NaN; NaN].
Proof. by apply (bool_decide_unpack _); vm_compute. Qed.

(** The end-to-end example of the specification: losses 100, 50 and 200 in
    the years 1, 1 and 2. *)
Example to_ylt_example :
  ∃ t, YearEventLossTable good_series = Ok t ∧
    ylt_rows (to_ylt t false) = [(1%Z, Qc_of_Z 150); (2%Z, Qc_of_Z 200)] ∧
    ylt_rows (to_ylt t true) = [(1%Z, Qc_of_Z 100); (2%Z, Qc_of_Z 200)].
Proof.
  eexists. split; [reflexivity|].
  split; by apply (bool_decide_unpack _); vm_compute.
Qed.

(** * Further properties *)

(** ** The layer engine: what a layer returns *)

Lemma apply_layer_cases t limit xs n_loss is_franchise out :
  apply_layer t limit xs n_loss is_franchise = Ok out →
  (0 ≤ xs)%Qc ∧
  out = match n_loss with
        | Some k => groupby_head k ∅
                      (sort_stable index_order (survivors t limit xs is_franchise))
        | None => survivors t limit xs is_franchise
        end.
Proof.
  intros H. pose proof (apply_layer_Ok _ _ _ _ _ _ H) as Hxs. split; [done|].
  destruct n_loss as [k|].
  - rewrite apply_layer_capped in H by done. by injection H.
  - rewrite apply_layer_uncapped in H by done. by injection H.
Qed.

Lemma apply_layer_sublist t limit xs n_loss is_franchise out :
  apply_layer t limit xs n_loss is_franchise = Ok out →
  ∃ l, out `sublist_of` l ∧ l ≡ₚ survivors t limit xs is_franchise.
Proof.
  intros [_ ->]%apply_layer_cases. destruct n_loss as [k|].
  - eexists. split; [apply groupby_head_sublist|].
    apply sort_stable_Permutation.
  - by eexists.
Qed.

Lemma survivors_keys t limit xs is_franchise :
  key <$> survivors t limit xs is_franchise =
  key <$> filter (λ r, (0 < layer_loss limit xs (Loss r))%Qc) (rows t).
Proof. unfold survivors. by rewrite <-list_fmap_compose. Qed.


(** X1.  The records that a layer returns form a valid table again, for
    the same number of years: their keys are unique and their years lie in
    [1, n_yrs], so layers can be chained. *)
Theorem apply_layer_valid (t : Yelt) (limit : option Qc) (xs : Qc)
    (n_loss : option nat) (is_franchise : bool) (out : list LossRecord) :
  valid_yelt t →
  apply_layer t limit xs n_loss is_franchise = Ok out →
  valid_yelt {| n_yrs := n_yrs t; rows := out |}.
Proof.
  intros [Hnd Hyr] Hout.
  destruct (apply_layer_sublist _ _ _ _ _ _ Hout) as (l & Hsub & Hperm).
  split; cbn [rows n_yrs].
  - eapply sublist_NoDup; [|by apply fmap_sublist].
    rewrite Hperm, survivors_keys.
    eapply sublist_NoDup; [done|]. apply fmap_sublist, sublist_filter.
  - intros r' Hr'. eapply elem_of_sublist in Hr'; [|done].
    rewrite Hperm in Hr'.
    apply elem_of_survivors in Hr' as (r & Hr & _ & _ & ->).
    cbn [with_loss Year]. by apply Hyr.
Qed.

Lemma apply_layer_valid_witness :
  valid_yelt cap_example ∧
  valid_yelt {| n_yrs := 10;
                rows := [record 1 2 12 10; record 2 3 5 30] |}.
Proof.
  split; [by apply (bool_decide_unpack _); vm_compute|].
  apply (apply_layer_valid cap_example (Some (Qc_of_Z 40)) (Qc_of_Z 50)
           (Some 1) false).
  - by apply (bool_decide_unpack _); vm_compute.
  - by apply (bool_decide_unpack _); vm_compute.
Defined.



Lemma with_loss_same r : with_loss r (Loss r) = r.
Proof. by destruct r. Qed.

Lemma survivors_default t is_franchise :
  survivors t None 0 is_franchise = filter (λ r, (0 < Loss r)%Qc) (rows t).
Proof.
  unfold survivors. induction (rows t) as [|r l IH]; [done|].
  rewrite !filter_cons. destruct (decide (0 < Loss r)%Qc) as [Hp|Hp].
  - rewrite decide_True by (apply layer_loss_pos; split; [done|exact I]).
    rewrite fmap_cons, IH. f_equal.
    assert ((if is_franchise then layer_loss None 0 (Loss r) + 0
             else layer_loss None 0 (Loss r))%Qc = Loss r) as ->;
      [|apply with_loss_same].
    clear IH. unfold layer_loss, Qcmax.
    destruct is_franchise; case_decide; qc_lra.
  - rewrite decide_False; [done|].
    intros [? _]%layer_loss_pos. done.
Qed.

(** X3.  With its default arguments (no limit, no attachment, no cap) a
    layer returns the records with a loss above zero, unchanged and in the
    order of the table, whether it is a franchise layer or not. *)
Theorem apply_layer_default (t : Yelt) (is_franchise : bool) :
  apply_layer t None 0 None is_franchise =
  Ok (filter (λ r, (0 < Loss r)%Qc) (rows t)).
Proof. rewrite apply_layer_uncapped by done. by rewrite survivors_default. Qed.

(** ** Layers in a row *)





(** ** Average annual loss *)

Lemma np_divide_finite (x : Qc) (n : Z) :
  (0 < n)%Z → np_divide x n = Finite (x / Qc_of_Z n).
Proof. intros. unfold np_divide. rewrite decide_False by lia. done. Qed.

Lemma Qc_div_le_mono (x y : Qc) (n : Z) :
  (0 < n)%Z → (x ≤ y)%Qc → (x / Qc_of_Z n ≤ y / Qc_of_Z n)%Qc.
Proof.
  intros Hn Hxy. unfold Qcdiv. apply Qcmult_le_compat_r; [done|].
  apply Qclt_le_weak, Qcinv_pos. rewrite <-Z2Qc_inj_0.
  by apply (proj1 (Z2Qc_inj_lt _ _)).
Qed.





Lemma NoDup_group_years l : NoDup (group_years l).
Proof.
  unfold group_years. rewrite sort_stable_Permutation. apply NoDup_remove_dups.
Qed.


(** ** The average annual loss of a layer *)










(** ** The frequency of a loss *)

Lemma length_filter_fmap {A B : Type} (f : A → B) (P : B → Prop)
    `{!∀ x, Decision (P x)} (l : list A) :
  length (filter P (f <$> l)) = length (filter (λ x, P (f x)) l).
Proof.
  induction l as [|a l IH]; [done|].
  rewrite fmap_cons, !filter_cons. case_decide; simpl; by rewrite IH.
Qed.

(** X8.  [freq0] bounds the exceedance frequencies of the positive
    losses: with a positive number of years it is a number, and the
    exceedance frequency of any record whose loss is above zero is not
    above it. *)
Theorem exfreq_le_freq0 (t : Yelt) (r : LossRecord) :
  (0 < n_yrs t)%Z → r ∈ rows t → (0 < Loss r)%Qc →
  ∃ f, freq0 t = Finite f ∧ (exfreq_of t (Loss r) ≤ f)%Qc.
Proof.
  intros Hn Hr Hpos. eexists. split; [by apply np_divide_finite|].
  unfold exfreq_of. apply Qc_div_le_mono; [done|].
  unfold Qc_of_nat. apply (proj1 (Z2Qc_inj_le _ _)), inj_le.
  rewrite rank_desc_min_count by (by apply list_elem_of_fmap_2).
  rewrite <-(length_filter_fmap Loss (λ v, (0 < v)%Qc)).
  apply (length_filter_strict _ _ (Loss <$> rows t) (Loss r)).
  - intros v ?. qc_lra.
  - by apply list_elem_of_fmap_2.
  - done.
  - intros ?. qc_lra.
Qed.

Lemma exfreq_le_freq0_witness :
  ∃ f, freq0 cap_example = Finite f ∧
       (exfreq_of cap_example (Loss (record 1 2 12 60)) ≤ f)%Qc.
Proof.
  apply (exfreq_le_freq0 cap_example (record 1 2 12 60)).
  - done.
  - unfold cap_example. cbn [rows]. right. left.
  - done.
Defined.

(** ** The years of the year loss table *)

Lemma group_years_sorted l : StronglySorted Z.lt (group_years l).
Proof.
  apply (StronglySorted_NoDup_strict Z.le); [|apply NoDup_group_years|].
  - apply sort_stable_sorted; [apply _|]. intros x y. lia.
  - intros x y _ _ Hne Hle. lia.
Qed.

(** X9.  The year loss table has one entry for each year in which the
    table has a record and none for the other years, its years stand in
    strictly ascending order, and it keeps the table's number of years. *)
Theorem to_ylt_years (t : Yelt) (is_occurrence : bool) :
  StronglySorted Z.lt (ylt_rows (to_ylt t is_occurrence)).*1 ∧
  (∀ y, y ∈ (ylt_rows (to_ylt t is_occurrence)).*1 ↔
        ∃ r, r ∈ rows t ∧ Year r = y) ∧
  (∀ y, ylt_lookup (to_ylt t is_occurrence) y = None ↔
        ¬ ∃ r, r ∈ rows t ∧ Year r = y) ∧
  ylt_n_yrs (to_ylt t is_occurrence) = n_yrs t.
Proof.
  assert ((ylt_rows (to_ylt t is_occurrence)).*1 = group_years (rows t)) as Hy.
  { unfold to_ylt. cbn [ylt_rows]. rewrite <-list_fmap_compose.
    unfold compose. cbn [fst]. apply list_fmap_id. }
  assert (∀ y, y ∈ group_years (rows t) ↔ ∃ r, r ∈ rows t ∧ Year r = y) as Hin.
  { intros y. rewrite elem_of_group_years, list_elem_of_fmap.
    split; intros (r & ? & ?); by exists r. }
  rewrite Hy. split; [apply group_years_sorted|]. split; [done|].
  split; [|done]. intros y. rewrite <-Hin. split.
  - intros Hnone Hyin. apply elem_of_group_years in Hyin.
    rewrite (ylt_lookup_to_ylt _ _ _ Hyin) in Hnone. done.
  - intros Hyin. unfold ylt_lookup.
    destruct (list_find _ _) as [[i [y' v]]|] eqn:Hf; [|done].
    apply list_find_Some in Hf as (Hi & E & _). cbn in E. subst y'.
    destruct Hyin. rewrite <-Hy. apply list_elem_of_fmap.
    exists (y, v). split; [done|]. by eapply list_elem_of_lookup_2.
Qed.

(** ** Ranks from the smallest up and [cprob] *)

Lemma StronglySorted_reverse {A : Type} (R : relation A) (l : list A) :
  StronglySorted R l → StronglySorted (flip R) (reverse l).
Proof.
  induction 1 as [|a l Hl IH Ha]; [constructor|].
  rewrite reverse_cons. apply StronglySorted_app_2; [|done|repeat constructor].
  intros x1 x2 Hx1 ->%list_elem_of_singleton. unfold flip.
  rewrite Forall_forall in Ha. apply Ha. by apply elem_of_reverse.
Qed.

#[global] Instance ascending_trans : Transitive ascending.
Proof. intros a b c. unfold ascending. intros. qc_lra. Qed.

#[global] Instance ascending_total : Total ascending.
Proof.
  intros a b. unfold ascending.
  destruct (Qclt_le_dec a b); [left|right]; qc_lra.
Qed.

Lemma filter_length_complement (l : list Qc) (x : Qc) :
  length (filter (λ v, (x < v)%Qc) l) + count_le l x = length l.
Proof.
  unfold count_le. induction l as [|a l IH]; [done|].
  rewrite !filter_cons.
  destruct (decide (x < a)%Qc), (decide (a ≤ x)%Qc); simpl; try lia;
    exfalso; qc_lra.
Qed.

(** The rank is the number of values that are not larger. *)
Lemma rank_asc_max_count (vals : list Qc) (x : Qc) :
  x ∈ vals → rank_asc_max vals x = count_le vals x.
Proof.
  intros Hx. unfold rank_asc_max.
  assert (length (filter (λ v, (x < v)%Qc) (reverse (sort_stable ascending vals)))
          = length (filter (λ v, (x < v)%Qc) vals)) as Hlen.
  { by rewrite reverse_Permutation, sort_stable_Permutation. }
  pose proof (rank_of_sorted (reverse (sort_stable ascending vals)) x) as H.
  rewrite Hlen in H.
  pose proof (filter_length_complement vals x) as Hc.
  assert (StronglySorted descending (reverse (sort_stable ascending vals)))
    as Hs.
  { apply (StronglySorted_reverse ascending), sort_stable_sorted; apply _. }
  assert (x ∈ reverse (sort_stable ascending vals)) as Hin.
  { by apply elem_of_reverse, elem_of_sort_stable. }
  specialize (H Hs Hin).
  destruct (list_find _ _) as [[i y]|]; [lia|done].
Qed.

Lemma count_le_all (l : list Qc) (x : Qc) :
  count_le l x = length l ↔ ∀ v, v ∈ l → (v ≤ x)%Qc.
Proof.
  unfold count_le. induction l as [|a l IH].
  { split; [|done]. intros _ v Hv. by apply elem_of_nil in Hv. }
  rewrite filter_cons. case_decide as Ha; simpl.
  - rewrite Nat.succ_inj_wd, IH. split.
    + intros Hl v [->|Hv]%elem_of_cons; [done|by apply Hl].
    + intros Hl v Hv. apply Hl. by right.
  - pose proof (length_filter (λ v, (v ≤ x)%Qc) l). split; [lia|].
    intros Hl. destruct Ha. apply Hl. by left.
Qed.

Lemma count_le_strict (l : list Qc) (a b : Qc) :
  b ∈ l → (a < b)%Qc → count_le l a < count_le l b.
Proof.
  intros Hb Hab. unfold count_le.
  apply (length_filter_strict _ _ l b); [|done|apply Qcle_refl|].
  - intros v ?. qc_lra.
  - intros ?. qc_lra.
Qed.

Lemma Qc_of_nat_pos (n : nat) : 0 < n → (0 < Qc_of_nat n)%Qc.
Proof.
  intros Hn. unfold Qc_of_nat. rewrite <-Z2Qc_inj_0.
  apply (proj1 (Z2Qc_inj_lt _ _)). lia.
Qed.

Lemma Qc_of_nat_div_le (a b n : nat) :
  0 < n → a ≤ b → (Qc_of_nat a / Qc_of_nat n ≤ Qc_of_nat b / Qc_of_nat n)%Qc.
Proof.
  intros Hn Hab. unfold Qc_of_nat. apply Qc_div_le_mono; [lia|].
  apply (proj1 (Z2Qc_inj_le _ _)). lia.
Qed.

Lemma Qc_of_nat_div_lt (a b n : nat) :
  0 < n → a < b → (Qc_of_nat a / Qc_of_nat n < Qc_of_nat b / Qc_of_nat n)%Qc.
Proof.
  intros Hn Hab. unfold Qcdiv. apply Qcmult_lt_compat_r.
  - by apply Qcinv_pos, Qc_of_nat_pos.
  - unfold Qc_of_nat. apply (proj1 (Z2Qc_inj_lt _ _)). lia.
Qed.

Lemma Qc_of_nat_div_same (n : nat) :
  0 < n → (Qc_of_nat n / Qc_of_nat n)%Qc = 1%Qc.
Proof.
  intros Hn. unfold Qcdiv. apply Qcmult_inv_r.
  pose proof (Qc_of_nat_pos n Hn). intros E. rewrite E in *.
  by apply Qclt_not_eq in H.
Qed.

Lemma cprob_of_count (t : Yelt) (r : LossRecord) :
  r ∈ rows t →
  cprob_of t (Loss r) =
  (Qc_of_nat (count_le (Loss <$> rows t) (Loss r))
   / Qc_of_nat (length (rows t)))%Qc.
Proof.
  intros Hr. unfold cprob_of.
  by rewrite rank_asc_max_count by (by apply list_elem_of_fmap_2).
Qed.

Lemma cprob_of_strict (t : Yelt) (r1 r2 : LossRecord) :
  r1 ∈ rows t → r2 ∈ rows t → (Loss r1 < Loss r2)%Qc →
  (cprob_of t (Loss r1) < cprob_of t (Loss r2))%Qc.
Proof.
  intros H1 H2 Hlt. rewrite !cprob_of_count by done.
  apply Qc_of_nat_div_lt.
  - apply list_elem_of_lookup in H1 as [i Hi].
    apply lookup_lt_Some in Hi. lia.
  - apply count_le_strict; [by apply list_elem_of_fmap_2|done].
Qed.

(** X10.  The conditional probability that [cprob] gives a record is the
    share of the records whose loss is not above its own, ties taking the
    largest rank: it lies above 0 and not above 1, and it is 1 exactly for
    the records with the largest loss. *)
Theorem cprob_spec (t : Yelt) (r : LossRecord) :
  r ∈ rows t →
  cprob_of t (Loss r) =
    (Qc_of_nat (length (filter (λ v, (v ≤ Loss r)%Qc) (Loss <$> rows t)))
     / Qc_of_nat (length (rows t)))%Qc ∧
  (0 < cprob_of t (Loss r))%Qc ∧ (cprob_of t (Loss r) ≤ 1)%Qc ∧
  (cprob_of t (Loss r) = 1%Qc ↔ ∀ r', r' ∈ rows t → (Loss r' ≤ Loss r)%Qc).
Proof.
  intros Hr. split; [by apply cprob_of_count|].
  rewrite cprob_of_count by done.
  assert (0 < length (rows t)) as Hn.
  { apply list_elem_of_lookup in Hr as [i Hi].
    apply lookup_lt_Some in Hi. lia. }
  set (c := count_le (Loss <$> rows t) (Loss r)).
  assert (0 < c ≤ length (rows t)) as [Hc0 Hcn].
  { unfold c, count_le. split.
    - assert (Loss r ∈ filter (λ v, (v ≤ Loss r)%Qc) (Loss <$> rows t)) as Hin.
      { apply list_elem_of_filter. split; [apply Qcle_refl|].
        by apply list_elem_of_fmap_2. }
      apply list_elem_of_lookup in Hin as [i Hi].
      apply lookup_lt_Some in Hi. lia.
    - etrans; [apply length_filter|]. by rewrite length_fmap. }
  rewrite <-(Qc_of_nat_div_same (length (rows t))) by done.
  split; [|split].
  - replace 0%Qc with (Qc_of_nat 0 / Qc_of_nat (length (rows t)))%Qc
      by (unfold Qc_of_nat; change (Z.of_nat 0) with 0%Z; rewrite Z2Qc_inj_0;
          unfold Qcdiv; ring).
    by apply Qc_of_nat_div_lt.
  - by apply Qc_of_nat_div_le.
  - split.
    + intros E r' Hr'.
      assert (c = length (Loss <$> rows t)) as Hall.
      { rewrite length_fmap. destruct (decide (c = length (rows t))); [done|].
        pose proof (Qc_of_nat_div_lt c (length (rows t)) (length (rows t)) Hn
                      ltac:(lia)) as Hlt.
        rewrite E in Hlt. by apply Qclt_not_eq in Hlt. }
      apply (proj1 (count_le_all _ _) Hall). by apply list_elem_of_fmap_2.
    + intros Hmax. replace c with (length (rows t)); [done|].
      symmetry. rewrite <-(length_fmap Loss). apply count_le_all.
      intros v (r' & -> & Hr')%list_elem_of_fmap. by apply Hmax.
Qed.

Lemma cprob_spec_witness :
  cprob_of cap_example (Loss (record 2 3 5 80)) =
    (Qc_of_nat (length (filter (λ v, (v ≤ Loss (record 2 3 5 80))%Qc)
                          (Loss <$> rows cap_example)))
     / Qc_of_nat (length (rows cap_example)))%Qc ∧
  (0 < cprob_of cap_example (Loss (record 2 3 5 80)))%Qc ∧
  (cprob_of cap_example (Loss (record 2 3 5 80)) ≤ 1)%Qc ∧
  (cprob_of cap_example (Loss (record 2 3 5 80)) = 1%Qc ↔
   ∀ r', r' ∈ rows cap_example → (Loss r' ≤ Loss (record 2 3 5 80))%Qc).
Proof.
  apply (cprob_spec cap_example (record 2 3 5 80)).
  unfold cap_example. cbn [rows]. right. right. left.
Defined.





Lemma cprob_of_max (t : Yelt) (r : LossRecord) :
  r ∈ rows t → (∀ r', r' ∈ rows t → (Loss r' ≤ Loss r)%Qc) →
  cprob_of t (Loss r) = 1%Qc.
Proof.
  intros Hr Hmax. rewrite cprob_of_count by done.
  replace (count_le (Loss <$> rows t) (Loss r)) with (length (rows t)).
  - apply Qc_of_nat_div_same. apply list_elem_of_lookup in Hr as [i Hi].
    apply lookup_lt_Some in Hi. lia.
  - symmetry. rewrite <-(length_fmap Loss). apply count_le_all.
    intros v (r' & -> & Hr')%list_elem_of_fmap. by apply Hmax.
Qed.

(** ** The severity curve *)

#[global] Instance sev_order_trans : Transitive sev_order.
Proof.
  intros [[ya ea da la] fa] [[yb eb db lb] fb] [[yc ec dc lc] fc].
  unfold sev_order. cbn [sev_record CProb Loss Year DayOfYear].
  intros [H1|[E1 [H1|[E1' [H1|[E1'' H1]]]]]]
         [H2|[E2 [H2|[E2' [H2|[E2'' H2]]]]]]; ef_order_solve.
Qed.

#[global] Instance sev_order_total : Total sev_order.
Proof.
  intros [[ya ea da la] fa] [[yb eb db lb] fb].
  unfold sev_order. cbn [sev_record CProb Loss Year DayOfYear].
  destruct (Qc_dec la lb) as [[?|?]|?]; [left; ef_order_solve|right; ef_order_solve|].
  destruct (Qc_dec fa fb) as [[?|?]|?]; [left; ef_order_solve|right; ef_order_solve|].
  destruct (Z.lt_trichotomy ya yb) as [?|[?|?]];
    [left; ef_order_solve| |right; ef_order_solve].
  destruct (Z.le_ge_cases da db); [left|right]; ef_order_solve.
Qed.

Lemma to_severity_curve_eq (t : Yelt) (keep_index : bool) :
  to_severity_curve t keep_index =
  if keep_index then KeyedSeverity (reset_index (sev_frame t))
  else PlainSeverity
         (reset_index
            (drop_duplicates []
               (prod_map id (λ r, (Loss (sev_record r), CProb r))
                <$> sev_frame t))).
Proof.
  unfold to_severity_curve, sev_frame, sev_rows, cprob.
  by rewrite zip_with_fmap_r, zip_with_diag.
Qed.

Lemma sev_frame_values (t : Yelt) : (sev_frame t).*2 ≡ₚ sev_rows t.
Proof.
  unfold sev_frame. by rewrite sort_stable_Permutation, snd_imap_pair.
Qed.

Lemma sev_frame_sorted (t : Yelt) :
  StronglySorted sev_order (sev_frame t).*2.
Proof.
  eapply StronglySorted_fmap; [|apply sort_stable_sorted; apply _].
  by intros x y.
Qed.

Lemma elem_of_sev_rows (t : Yelt) (a : SevRow) :
  a ∈ sev_rows t ↔
  sev_record a ∈ rows t ∧ CProb a = cprob_of t (Loss (sev_record a)).
Proof.
  unfold sev_rows. rewrite list_elem_of_fmap. split.
  - by intros (r & -> & Hr).
  - intros [Hr He]. exists (sev_record a). split; [|done].
    destruct a; simpl in *; by subst.
Qed.

Lemma sev_values_sublist (t : Yelt) :
  sev_values t `sublist_of`
  (λ r, (Loss (sev_record r), CProb r)) <$> (sev_frame t).*2.
Proof.
  unfold sev_values. rewrite <-list_fmap_compose.
  etrans; [apply fmap_sublist, drop_duplicates_sublist|].
  by rewrite <-list_fmap_compose.
Qed.

Lemma elem_of_sev_values (t : Yelt) (v : Qc * Qc) :
  v ∈ sev_values t ↔ ∃ r, r ∈ rows t ∧ v = (Loss r, cprob_of t (Loss r)).
Proof.
  unfold sev_values. rewrite elem_of_drop_duplicates, <-list_fmap_compose.
  rewrite list_elem_of_fmap. split.
  - intros [(a & -> & Ha) _].
    apply (list_elem_of_fmap_2 snd) in Ha. rewrite sev_frame_values in Ha.
    apply elem_of_sev_rows in Ha as [Hr He]. simpl. rewrite He. eauto.
  - intros (r & Hr & ->). split; [|apply not_elem_of_nil].
    assert ({| sev_record := r; CProb := cprob_of t (Loss r) |}
            ∈ (sev_frame t).*2) as Ha.
    { rewrite sev_frame_values. by apply elem_of_sev_rows. }
    apply list_elem_of_fmap in Ha as (a & Ha & Hin).
    exists a. split; [|done]. simpl. by rewrite <-Ha.
Qed.

Lemma sev_values_strict (t : Yelt) :
  StronglySorted (λ a b : Qc * Qc, (a.1 < b.1)%Qc ∧ (a.2 < b.2)%Qc)
    (sev_values t).
Proof.
  eapply (StronglySorted_NoDup_strict (λ a b : Qc * Qc, (a.1 ≤ b.1)%Qc)).
  - eapply StronglySorted_sublist; [apply sev_values_sublist|].
    eapply StronglySorted_fmap; [|apply sev_frame_sorted].
    intros a b [Hlt|[Heq _]]; simpl; qc_lra.
  - apply NoDup_drop_duplicates.
  - intros x y Hx Hy Hne Hle.
    apply elem_of_sev_values in Hx as (rx & Hrx & ->).
    apply elem_of_sev_values in Hy as (ry & Hry & ->). simpl in *.
    assert (Loss rx < Loss ry)%Qc as Hlt.
    { destruct (Qc_dec (Loss rx) (Loss ry)) as [[?|?]|E]; [done|qc_lra|].
      destruct Hne. by rewrite E. }
    split; [done|]. by apply cprob_of_strict.
Qed.

Lemma StronglySorted_last {A : Type} (R : relation A) (l : list A) (v x : A) :
  StronglySorted R l → last l = Some v → x ∈ l → x = v ∨ R x v.
Proof.
  intros Hs [l' ->]%last_Some Hx.
  apply elem_of_app in Hx as [Hx|Hx%list_elem_of_singleton]; [right|by left].
  eapply StronglySorted_app_1_elem_of; [done..|]. by apply list_elem_of_singleton.
Qed.

(** X12.  The severity curve.  With [keep_index] it holds every record
    with its conditional probability, ordered by loss, then probability,
    then year, then day of year, all ascending.  Without it the rows are the
    distinct (Loss, CProb) pairs of the table, with the loss and the
    probability both strictly increasing, and the last row has probability
    1.  Either way the index 'Order' counts 0, 1, 2, ... *)
Theorem to_severity_curve_spec (t : Yelt) :
  ∃ keyed plain,
    to_severity_curve t true = KeyedSeverity keyed ∧
    to_severity_curve t false = PlainSeverity plain ∧
    severity_Order (to_severity_curve t true) = seq 0 (length (rows t)) ∧
    severity_Order (to_severity_curve t false) = seq 0 (length plain) ∧
    keyed.*2 ≡ₚ zip_with Build_SevRow (rows t) (cprob t) ∧
    StronglySorted sev_order keyed.*2 ∧
    (∀ v, v ∈ plain.*2 ↔ ∃ r, r ∈ rows t ∧ v = (Loss r, cprob_of t (Loss r))) ∧
    StronglySorted (λ a b : Qc * Qc, (a.1 < b.1)%Qc ∧ (a.2 < b.2)%Qc) plain.*2 ∧
    (∀ v, last plain.*2 = Some v → v.2 = 1%Qc).
Proof.
  rewrite !to_severity_curve_eq. do 2 eexists.
  split; [done|]. split; [done|]. cbn [severity_Order].
  rewrite !fst_reset_index, !snd_reset_index, !length_reset_index.
  fold (sev_values t).
  split.
  { f_equal. rewrite <-(length_fmap snd), sev_frame_values.
    unfold sev_rows. by rewrite length_fmap. }
  split; [done|].
  split.
  { rewrite sev_frame_values. unfold sev_rows, cprob.
    by rewrite zip_with_fmap_r, zip_with_diag. }
  split; [apply sev_frame_sorted|].
  split; [apply elem_of_sev_values|].
  split; [apply sev_values_strict|].
  intros v Hlast. pose proof (last_Some_elem_of _ _ Hlast) as Hv.
  apply elem_of_sev_values in Hv as (r & Hr & ->). cbn [snd].
  apply cprob_of_max; [done|]. intros r' Hr'.
  assert ((Loss r', cprob_of t (Loss r')) ∈ sev_values t) as Hin.
  { apply elem_of_sev_values. by exists r'. }
  destruct (StronglySorted_last _ _ _ _ (sev_values_strict t) Hlast Hin)
    as [E|[Hlt _]].
  - injection E as -> _. apply Qcle_refl.
  - simpl in Hlt. qc_lra.
Qed.

(** The two severity curves of a table in which two events share a loss:
    the tied rows share the probability 3/4 and stand with the earlier year
    first; the plain curve keeps one row for them. *)
Example to_severity_curve_example :
  to_severity_curve tie_example true =
    KeyedSeverity
      [(0, {| sev_record := record 1 2 20 50;
              CProb := (Qc_of_Z 1 / Qc_of_Z 4)%Qc |});
       (1, {| sev_record := record 1 1 10 100;
              CProb := (Qc_of_Z 3 / Qc_of_Z 4)%Qc |});
       (2, {| sev_record := record 2 4 5 100;
              CProb := (Qc_of_Z 3 / Qc_of_Z 4)%Qc |});
       (3, {| sev_record := record 2 3 5 200;
              CProb := Qc_of_Z 1 |})] ∧
  to_severity_curve tie_example false =
    PlainSeverity
      [(0, (Qc_of_Z 50, (Qc_of_Z 1 / Qc_of_Z 4)%Qc));
       (1, (Qc_of_Z 100, (Qc_of_Z 3 / Qc_of_Z 4)%Qc));
       (2, (Qc_of_Z 200, Qc_of_Z 1))].
Proof. split; by apply (bool_decide_unpack _); vm_compute. Qed.

(** ** Building a table from its columns *)

Lemma index_tuples_int (names : list string) (y e d : list Z)
    (v : SeriesValues) (a : gmap string Z) :
  length y = values_len v → length e = values_len v →
  length d = values_len v →
  index_tuples {| index_names := names;
                  index_levels := [IntLevel y; IntLevel e; IntLevel d];
                  values := v; attrs := a |} =
  (λ k, [Some (IntCell k.1.1); Some (IntCell k.1.2); Some (IntCell k.2)])
  <$> zip (zip y e) d.
Proof.
  intros Hy He Hd. unfold index_tuples.
  change (series_len _) with (values_len v).
  cbn [index_levels fmap list_fmap level_cells].
  apply list_eq. intros i. rewrite !list_lookup_fmap.
  destruct (decide (i < values_len v)) as [Hi|Hi].
  - rewrite lookup_seq_lt by done. cbn [fmap option_fmap option_map].
    destruct (lookup_lt_is_Some_2 y i) as [a1 H1]; [lia|].
    destruct (lookup_lt_is_Some_2 e i) as [a2 H2]; [lia|].
    destruct (lookup_lt_is_Some_2 d i) as [a3 H3]; [lia|].
    change (0 + i) with i. rewrite !list_lookup_fmap, H1, H2, H3.
    assert (zip (zip y e) d !! i = Some (a1, a2, a3)) as ->; [|done].
    apply lookup_zip_Some. split; [|done]. by apply lookup_zip_Some.
  - rewrite lookup_seq_ge by lia. symmetry.
    rewrite lookup_ge_None_2; [done|]. rewrite !length_zip. lia.
Qed.

Lemma NoDup_index_tuples_int (names : list string) (y e d : list Z)
    (v : SeriesValues) (a : gmap string Z) :
  length y = values_len v → length e = values_len v →
  length d = values_len v →
  NoDup (index_tuples {| index_names := names;
                         index_levels := [IntLevel y; IntLevel e; IntLevel d];
                         values := v; attrs := a |}) ↔
  NoDup (zip (zip y e) d).
Proof.
  intros Hy He Hd. rewrite index_tuples_int by done. split.
  - apply NoDup_fmap_1.
  - apply NoDup_fmap_2. intros [[a1 a2] a3] [[b1 b2] b3]. simpl. congruence.
Qed.

(** X13.  Round trip through [from_cols]: integer key columns and a loss
    column of one length, with no key triple repeated and every year within
    [1, n_yrs], give a series that the accessor accepts, and the table that
    it wraps has [n_yrs] and, row by row, the values of the columns. *)
Theorem from_cols_round_trip (year eventid dayofyear : list Z)
    (loss : list Qc) (n : Z) :
  length year = length loss → length eventid = length loss →
  length dayofyear = length loss →
  NoDup (zip (zip year eventid) dayofyear) →
  (∀ y, y ∈ year → (1 ≤ y ≤ n)%Z) →
  ∃ s, from_cols (IntLevel year) (IntLevel eventid) (IntLevel dayofyear)
         (NumericValues loss) n = Ok s ∧
       YearEventLossTable s =
       Ok {| n_yrs := n; rows := cols_rows year eventid dayofyear loss |}.
Proof.
  intros Hy He Hd Hnd Hyears.
  set (s := {| index_names := [COL_YEAR; COL_EVENT; COL_DAY];
               index_levels := [IntLevel year; IntLevel eventid;
                                IntLevel dayofyear];
               values := NumericValues loss;
               attrs := <["n_yrs" := n]> ∅ |}).
  exists s. split.
  - unfold from_cols. cbn [level_cells values_len].
    rewrite !length_fmap. rewrite decide_True by done.
    rewrite decide_True; [done|].
    by apply NoDup_index_tuples_int.
  - unfold YearEventLossTable.
    assert (_validate s = Ok ()) as ->.
    { apply validate_Ok. split; [by unfold index_shape|].
      split; [unfold integer_keys, s; cbn [index_levels];
              repeat constructor; eauto|].
      split; [by eexists|]. split.
      - exists n. split; [apply lookup_insert_eq|]. exact Hyears.
      - unfold unique_keys, s. by apply NoDup_index_tuples_int. }
    unfold s. cbn [attrs]. rewrite lookup_insert_eq. done.
Qed.

Lemma from_cols_round_trip_witness :
  ∃ s, from_cols (IntLevel [1; 1; 2]%Z) (IntLevel [1; 2; 3]%Z)
         (IntLevel [10; 20; 5]%Z)
         (NumericValues [Qc_of_Z 100; Qc_of_Z 50; Qc_of_Z 200]) 10 = Ok s ∧
       YearEventLossTable s =
       Ok {| n_yrs := 10;
             rows := cols_rows [1; 1; 2]%Z [1; 2; 3]%Z [10; 20; 5]%Z
                       [Qc_of_Z 100; Qc_of_Z 50; Qc_of_Z 200] |}.
Proof.
  apply (from_cols_round_trip [1; 1; 2]%Z [1; 2; 3]%Z [10; 20; 5]%Z
           [Qc_of_Z 100; Qc_of_Z 50; Qc_of_Z 200] 10).
  - reflexivity.
  - reflexivity.
  - reflexivity.
  - by apply (bool_decide_unpack _); vm_compute.
  - intros y Hy. set_unfold. lia.
Defined.

(** X14.  Integer key columns of one length in which two rows share the
    triple (year, event, day) are refused by [from_cols] with its own
    ValueError, whatever the losses and the number of years. *)
Theorem from_cols_duplicates (year eventid dayofyear : list Z)
    (loss : SeriesValues) (n : Z) :
  length year = values_len loss → length eventid = values_len loss →
  length dayofyear = values_len loss →
  ¬ NoDup (zip (zip year eventid) dayofyear) →
  from_cols (IntLevel year) (IntLevel eventid) (IntLevel dayofyear) loss n =
  Raise err_duplicates.
Proof.
  intros Hy He Hd Hdup. unfold from_cols. cbn [level_cells].
  rewrite !length_fmap. rewrite decide_True by done.
  rewrite decide_False; [done|].
  intros Hnd. apply Hdup. by apply NoDup_index_tuples_int in Hnd.
Qed.

Lemma from_cols_duplicates_witness :
  from_cols (IntLevel [1; 1]%Z) (IntLevel [7; 7]%Z) (IntLevel [10; 10]%Z)
    (NumericValues [Qc_of_Z 100; Qc_of_Z 50]) 10 = Raise err_duplicates.
Proof.
  apply (from_cols_duplicates [1; 1]%Z [7; 7]%Z [10; 10]%Z
           (NumericValues [Qc_of_Z 100; Qc_of_Z 50]) 10).
  - reflexivity.
  - reflexivity.
  - reflexivity.
  - by apply (bool_decide_unpack _); vm_compute.
Defined.

(** X15.  What [from_cols] returns is a well-formed series with the index
    names, the unique keys and the [n_yrs] that the accessor asks for: the
    accessor either wraps it or refuses it for a non-integer key column, a
    non-numeric loss column or a year out of range, and for nothing else. *)
Theorem from_cols_then_accessor (year eventid dayofyear : IndexLevel)
    (loss : SeriesValues) (n : Z) (s : Series) :
  from_cols year eventid dayofyear loss n = Ok s →
  well_formed s ∧ index_shape s ∧ unique_keys s ∧
  attrs s !! "n_yrs" = Some n ∧ values s = loss ∧
  ((∃ t, YearEventLossTable s = Ok t ∧ n_yrs t = n) ∨
   YearEventLossTable s = Raise (err_index_dtype s) ∨
   YearEventLossTable s = Raise (err_loss_dtype s) ∨
   YearEventLossTable s = Raise err_years).
Proof.
  unfold from_cols. case_decide as Hlen; [|done]. case_decide as Hnd; [|done].
  intros [= <-]. destruct Hlen as (Hy & He & Hd).
  split.
  { split; [done|]. cbn [index_levels]. unfold series_len. cbn [values].
    fold (values_len loss). by repeat (constructor; [done|]). }
  split; [by unfold index_shape|].
  split; [exact Hnd|].
  split; [apply lookup_insert_eq|].
  split; [done|].
  unfold YearEventLossTable, _validate.
  cbn [index_names index_levels values attrs].
  rewrite decide_False by (intros Hn; by apply Hn).
  change (forallb _ INDEX_NAMES) with true. cbn [negb].
  destruct (forallb is_integer_dtype [year; eventid; dayofyear]);
    cbn [negb]; [|right; by left].
  destruct (is_numeric_dtype loss); cbn [negb]; [|right; right; by left].
  rewrite lookup_insert_eq.
  rewrite (bool_decide_eq_true_2 _ Hnd). cbn [negb].
  destruct (lt_num _ _ || gt_num _ _); [by do 3 right|].
  left. eexists. split; [done|]. done.
Qed.

Lemma from_cols_then_accessor_witness :
  well_formed good_series ∧ index_shape good_series ∧
  unique_keys good_series ∧
  attrs good_series !! "n_yrs" = Some 10%Z ∧
  values good_series = NumericValues [Qc_of_Z 100; Qc_of_Z 50; Qc_of_Z 200] ∧
  ((∃ t, YearEventLossTable good_series = Ok t ∧ n_yrs t = 10%Z) ∨
   YearEventLossTable good_series = Raise (err_index_dtype good_series) ∨
   YearEventLossTable good_series = Raise (err_loss_dtype good_series) ∨
   YearEventLossTable good_series = Raise err_years).
Proof.
  apply (from_cols_then_accessor (IntLevel [1; 1; 2]%Z) (IntLevel [1; 2; 3]%Z)
           (IntLevel [10; 20; 5]%Z)
           (NumericValues [Qc_of_Z 100; Qc_of_Z 50; Qc_of_Z 200]) 10).
  reflexivity.
Defined.

(** ** The range of the interpolated losses *)



Lemma StronglySorted_related {A : Type} (R : relation A) (l : list A) (x y : A) :
  StronglySorted R l → x ∈ l → y ∈ l → x = y ∨ R x y ∨ R y x.
Proof.
  induction 1 as [|a l Hl IH Ha]; intros Hx Hy; [by apply elem_of_nil in Hx|].
  rewrite Forall_forall in Ha.
  apply elem_of_cons in Hx as [->|Hx]; apply elem_of_cons in Hy as [->|Hy];
    auto.
Qed.





Lemma wrapped_table_valid_witness :
  valid_yelt {| n_yrs := 10; rows := series_rows good_series |} ∧
  attrs good_series !! "n_yrs" = Some 10%Z.
Proof.
  apply (wrapped_table_valid good_series
           {| n_yrs := 10; rows := series_rows good_series |}).
  - split; [reflexivity|]. repeat constructor.
  - reflexivity.
Defined.

(** ** Longer return periods, larger losses *)


(** Along the curve the loss falls where the frequency rises. *)
Lemma points_antitone (l : list (Qc * Qc)) (x y : Qc * Qc) :
  StronglySorted point_order l → x ∈ l → y ∈ l →
  (x.1 ≤ y.1)%Qc → (y.2 ≤ x.2)%Qc.
Proof.
  intros Hs Hx Hy Hle.
  destruct (StronglySorted_related _ _ x y Hs Hx Hy)
    as [->|[(? & _)|(? & ? & Hst)]]; [apply Qcle_refl|done|].
  destruct (Qclt_le_dec x.2 y.2) as [Hlt|?]; [|done].
  specialize (Hst Hlt). qc_lra.
Qed.






(** ** The interpolation does not depend on [keep_index] *)

(** Two ordered lists of sample points with the same points give the same
    interpolation: repeated points do not matter, except to a NaN, which
    sees whether there is one sample point or more. *)
Lemma interp1_same_points (p0 p0' : Qc * Qc) (ps ps' : list (Qc * Qc))
    (x : npfloat) :
  StronglySorted point_order (p0 :: ps) →
  StronglySorted point_order (p0' :: ps') →
  (∀ p, p ∈ p0 :: ps ↔ p ∈ p0' :: ps') →
  (x = NaN → (ps = [] ↔ ps' = [])) →
  interp1 p0 ps (Fin p0.2) (Fin 0) x = interp1 p0' ps' (Fin p0'.2) (Fin 0) x.
Proof.
  intros Hs Hs' Hsame Hshape.
  assert (∀ x y, x ∈ p0 :: ps → y ∈ p0 :: ps →
                 (x.1 ≤ y.1)%Qc → (y.2 ≤ x.2)%Qc) as Hanti.
  { intros a b. by apply points_antitone. }
  pose proof (first_point_min _ _ Hs) as Hmin.
  pose proof (first_point_min _ _ Hs') as Hmin'.
  destruct (last_point_max _ _ Hs) as [Hlast Hmax].
  destruct (last_point_max _ _ Hs') as [Hlast' Hmax'].
  assert (p0 ∈ p0' :: ps') as H0 by (apply Hsame; by left).
  assert (p0' ∈ p0 :: ps) as H0' by (apply Hsame; by left).
  assert (p0.1 = p0'.1) as E1.
  { destruct (Hmin _ H0'), (Hmin' _ H0). qc_lra. }
  assert (p0.2 = p0'.2) as E2.
  { destruct (Hmin _ H0'), (Hmin' _ H0). qc_lra. }
  assert ((List.last ps p0).1 = (List.last ps' p0').1) as E3.
  { pose proof (Hmax _ (proj2 (Hsame _) Hlast')).
    pose proof (Hmax' _ (proj1 (Hsame _) Hlast)). qc_lra. }
  destruct x as [| |q].
  { rewrite !interp1_NaN. specialize (Hshape eq_refl).
    destruct ps as [|p1 ps], ps' as [|p1' ps']; [by rewrite E2| | |done].
    - by pose proof (proj1 Hshape eq_refl).
    - by pose proof (proj2 Hshape eq_refl). }
  { by rewrite !interp1_PInf. }
  rewrite !interp1_Fin, <-E1, <-E2, <-E3.
  case_decide as Hhi; [done|]. case_decide as Hlo; [done|]. f_equal.
  destruct (interp_from_spec q p0 ps Hs ltac:(qc_lra) ltac:(qc_lra))
    as [(p1 & Hp1 & Q1 & ->)|(a1 & b1 & Ha1 & Hb1 & Hl1 & Hg1 & Hadj1 & ->)];
  destruct (interp_from_spec q p0' ps' Hs' ltac:(qc_lra) ltac:(qc_lra))
    as [(p2 & Hp2 & Q2 & ->)|(a2 & b2 & Ha2 & Hb2 & Hl2 & Hg2 & Hadj2 & ->)].
  - apply Hsame in Hp2.
    pose proof (Hanti p1 p2 Hp1 Hp2 ltac:(qc_lra)).
    pose proof (Hanti p2 p1 Hp2 Hp1 ltac:(qc_lra)). qc_lra.
  - exfalso. apply Hsame in Hp1. destruct (Hadj2 p1 Hp1); qc_lra.
  - exfalso. apply Hsame in Hp2. destruct (Hadj1 p2 Hp2); qc_lra.
  - pose proof (proj2 (Hsame _) Ha2) as Ha2'.
    pose proof (proj2 (Hsame _) Hb2) as Hb2'.
    pose proof (proj1 (Hsame _) Ha1) as Ha1'.
    pose proof (proj1 (Hsame _) Hb1) as Hb1'.
    assert (a1.1 = a2.1) as Ea1.
    { destruct (Hadj1 a2 Ha2'); destruct (Hadj2 a1 Ha1'); qc_lra. }
    assert (b1.1 = b2.1) as Eb1.
    { destruct (Hadj1 b2 Hb2'); destruct (Hadj2 b1 Hb1'); qc_lra. }
    assert (a1.2 = a2.2) as Ea2.
    { pose proof (Hanti a1 a2 Ha1 Ha2' ltac:(qc_lra)).
      pose proof (Hanti a2 a1 Ha2' Ha1 ltac:(qc_lra)). qc_lra. }
    assert (b1.2 = b2.2) as Eb2.
    { pose proof (Hanti b1 b2 Hb1 Hb2' ltac:(qc_lra)).
      pose proof (Hanti b2 b1 Hb2' Hb1 ltac:(qc_lra)). qc_lra. }
    by rewrite Ea1, Eb1, Ea2, Eb2.
Qed.

Lemma np_interp_points (x : list npfloat) (p0 : Qc * Qc) (ps : list (Qc * Qc)) :
  np_interp x (p0.1 :: ps.*1) (p0.2 :: ps.*2) (Fin p0.2) (Fin 0) =
  Ok (interp1 p0 ps (Fin p0.2) (Fin 0) <$> x).
Proof.
  cbn [np_interp]. rewrite decide_True by (by rewrite !length_fmap).
  rewrite zip_fst_snd. by destruct p0.
Qed.

Lemma reciprocal_positive (x : npfloat) :
  positive_rp x → reciprocal (if le_zero x then NaN else x) ≠ NaN.
Proof.
  destruct x as [| |q]; cbn [positive_rp le_zero]; [done|done|].
  intros Hq. rewrite bool_decide_eq_false_2 by (intros ?; qc_lra).
  cbn [reciprocal]. by case_decide.
Qed.

(** X18.  On a valid table [loss_at_rp] does the same with and without
    [keep_index] (the losses returned, the error on the table without
    records, the arrays left in the store) whenever the return periods are
    all above zero, or the table has at most one record, or two of its
    records differ in loss: the rows that the curve repeats for tied losses
    do not change the interpolation.  The one case left out is that of the
    records, two or more, that all share one loss, where a return period
    <= 0 gets that loss without [keep_index] and NaN with it. *)
Theorem loss_at_rp_keep_index (t : Yelt) (return_periods : loc) (σ : heap) :
  valid_yelt t →
  Forall positive_rp (default [] (σ !! return_periods)) ∨
    length (rows t) ≤ 1 ∨
    (∃ r1 r2, r1 ∈ rows t ∧ r2 ∈ rows t ∧ Loss r1 ≠ Loss r2) →
  loss_at_rp t true return_periods σ = loss_at_rp t false return_periods σ.
Proof.
  intros Hv Hcase.
  pose proof (curve_points_sorted t true Hv) as Hs1.
  pose proof (curve_points_sorted t false Hv) as Hs2.
  pose proof (elem_of_curve_points t true) as Hel1.
  pose proof (elem_of_curve_points t false) as Hel2.
  pose proof (curve_ExFreq_points t true) as Hxp1.
  pose proof (curve_Loss_points t true) as Hfp1.
  pose proof (curve_ExFreq_points t false) as Hxp2.
  pose proof (curve_Loss_points t false) as Hfp2.
  destruct (curve_points (to_ef_curve t true)) as [|p1 ps1] eqn:E1;
    destruct (curve_points (to_ef_curve t false)) as [|p2 ps2] eqn:E2.
  - by rewrite !loss_at_rp_empty.
  - exfalso. assert (p2 ∈ @nil (Qc * Qc)) as H; [|by apply elem_of_nil in H].
    apply Hel1, Hel2. by left.
  - exfalso. assert (p1 ∈ @nil (Qc * Qc)) as H; [|by apply elem_of_nil in H].
    apply Hel2, Hel1. by left.
  - pose proof (curve_single_point t true p1 ps1 E1) as Hone1.
    pose proof (curve_single_point t false p2 ps2 E2) as Hone2.
    cbn [single_point] in Hone1, Hone2.
    assert (length (rows t) ≤ 1 ∨
            (∃ r1 r2, r1 ∈ rows t ∧ r2 ∈ rows t ∧ Loss r1 ≠ Loss r2) →
            (ps1 = [] ↔ ps2 = [])) as Hshape.
    { destruct (proj1 (Hel1 p1) ltac:(by left)) as (r0 & Hr0 & _).
      rewrite Hone1, Hone2. intros [Hle|(r1 & r2 & H1 & H2 & Hne)].
      - destruct (rows t) as [|r [|r' l]] eqn:Er;
          [by apply elem_of_nil in Hr0| |simpl in Hle; lia].
        split; [|done]. intros _ r1 r2 ->%list_elem_of_singleton
                                  ->%list_elem_of_singleton. done.
      - split.
        + intros Hlen. destruct (rows t) as [|r [|r' l]] eqn:Er; try done.
          apply list_elem_of_singleton in H1, H2. destruct Hne. congruence.
        + intros Hall. destruct Hne. by apply Hall. }
    rewrite fmap_cons in Hxp1, Hfp1, Hxp2, Hfp2.
    erewrite !loss_at_rp_run by done.
    rewrite Hxp1, Hfp1, Hxp2, Hfp2, !np_interp_points.
    f_equal. f_equal. rewrite <-!list_fmap_compose.
    apply list_fmap_ext. intros i x Hx. unfold compose.
    apply interp1_same_points; [done|done|by intros p; rewrite Hel1, Hel2|].
    intros HNaN. destruct Hcase as [Hpos|Hcase]; [|by apply Hshape].
    exfalso. rewrite Forall_forall in Hpos.
    apply (reciprocal_positive x); [|done].
    apply Hpos. by eapply list_elem_of_lookup_2.
Qed.

Lemma loss_at_rp_keep_index_witness :
  loss_at_rp tie_example true 1%positive rp_store =
  loss_at_rp tie_example false 1%positive rp_store.
Proof.
  apply (loss_at_rp_keep_index tie_example 1%positive rp_store).
  - by apply (bool_decide_unpack _); vm_compute.
  - right. right. exists (record 1 1 10 100), (record 1 2 20 50).
    unfold tie_example. cbn [rows].
    split; [by left|]. split; [by right; left|].
    by apply (bool_decide_unpack _); vm_compute.
Defined.

(** The case left out: two records that share the loss 100.  The return
    periods 0 and -3 get NaN from the two rows kept with [keep_index], and
    the loss from the single row left without. *)
Example loss_at_rp_shared_loss_example :
  (loss_at_rp shared_loss_example true 1%positive rp_store).1 =
    Ok [Fin (Qc_of_Z 100); Fin 0%Qc; Fin 0%Qc; NaN; NaN] ∧
  (loss_at_rp shared_loss_example false 1%positive rp_store).1 =
    Ok [Fin (Qc_of_Z 100); Fin 0%Qc; Fin 0%Qc;
        Fin (Qc_of_Z 100); Fin (Qc_of_Z 100)].
Proof. split; by apply (bool_decide_unpack _); vm_compute. Qed.

(** ** Layers on top of each other *)







(** ** The largest loss of a year *)

(** X20.  The value of the occurrence year loss table at a year is the
    largest loss of that year: a record of the year has it, and no record
    of the year has more. *)
Theorem to_ylt_occurrence_max (t : Yelt) (y : Z) (m : Qc) :
  ylt_lookup (to_ylt t true) y = Some m →
  (∃ r, r ∈ rows t ∧ Year r = y ∧ Loss r = m) ∧
  ∀ r, r ∈ rows t → Year r = y → (Loss r ≤ m)%Qc.
Proof.
  intros Hm.
  assert (y ∈ Year <$> rows t) as Hy.
  { unfold ylt_lookup in Hm.
    destruct (list_find _ _) as [[i [y' v]]|] eqn:Hf; [|done].
    apply list_find_Some in Hf as (Hi & E & _). cbn in E. subst y'.
    apply list_elem_of_lookup_2 in Hi. unfold to_ylt in Hi. cbn [ylt_rows] in Hi.
    apply list_elem_of_fmap in Hi as (y' & [= <- _] & Hin).
    by apply elem_of_group_years. }
  rewrite (ylt_lookup_to_ylt _ _ _ Hy) in Hm. injection Hm as <-.
  apply list_elem_of_fmap in Hy as (r0 & Ey & Hr0).
  assert (Loss r0 ∈ year_group (rows t) y) as Hg.
  { unfold year_group. apply list_elem_of_fmap_2, list_elem_of_filter. done. }
  unfold series_max. destruct (year_group (rows t) y) as [|x g] eqn:Eg.
  { by apply elem_of_nil in Hg. }
  destruct (series_max_upper x g) as [Hin Hub]. rewrite <-Eg in Hin, Hub.
  split.
  - unfold year_group in Hin.
    apply list_elem_of_fmap in Hin as (r & Er & Hr).
    apply list_elem_of_filter in Hr as [Hyr Hr]. by exists r.
  - intros r Hr Hyr. apply Hub. unfold year_group.
    apply list_elem_of_fmap_2, list_elem_of_filter. done.
Qed.

Lemma to_ylt_occurrence_max_witness :
  (∃ r, r ∈ rows cap_example ∧ Year r = 1%Z ∧ Loss r = Qc_of_Z 100) ∧
  ∀ r, r ∈ rows cap_example → Year r = 1%Z → (Loss r ≤ Qc_of_Z 100)%Qc.
Proof.
  apply (to_ylt_occurrence_max cap_example 1 (Qc_of_Z 100)).
  by apply (bool_decide_unpack _); vm_compute.
Defined.
